(** * Releases views: grouping utilities, archive action and list loader

    A shallow embedding of
    - [app/views/releases/detail/utils.tsx]: [archiveRelease],
      [restoreRelease], [getFilesByRepository], [getCommitsByRepository],
      [getQuery], [getReposToRender];
    - the release list view ([ReleasesList]): [getEndpoints],
      [onRequestSuccess], [handleSearch], [handleSort],
      [renderEmptyMessage], [renderInnerBody].

    The accumulators of the two grouping functions are objects created as
    [{}] and filled by assignment under names taken from the input: they
    are modelled with their own properties and their prototype, since the
    names [__proto__] and [hasOwnProperty] reach the prototype and the
    inherited method.  Query objects, built by spreading and [pick], are
    finite maps ([gmap string _]).  A [Set] is a finite set ([gset]); the
    enumeration order of keys and members is not part of the model. *)

From stdpp Require Import gmap strings list fin_maps.

Open Scope string_scope.
Open Scope list_scope.

(** * Part I: the programs *)

(** ** [app/views/releases/detail/utils.tsx] *)

Module ReleaseDetailUtils.

(** [app/types]: the parts of [Repository], [Commit], [CommitAuthor] and
    [CommitFile] the utilities read.  An optional or nullable field is an
    [option]. *)
Record Repository := mkRepository {
  repository_name : option string
}.

Record Commit := mkCommit {
  commit_id : string;
  commit_message : string;
  commit_repository : option Repository
}.

Record CommitAuthor := mkCommitAuthor {
  author_email : option string;
  author_name : option string
}.

Record CommitFile := mkCommitFile {
  filename : string;
  repoName : string;
  author : CommitAuthor;
  type : string
}.

#[global] Instance Repository_eq_dec : EqDecision Repository.
Proof. solve_decision. Defined.
#[global] Instance Commit_eq_dec : EqDecision Commit.
Proof. solve_decision. Defined.
#[global] Instance CommitAuthor_eq_dec : EqDecision CommitAuthor.
Proof. solve_decision. Defined.
#[global] Instance CommitFile_eq_dec : EqDecision CommitFile.
Proof. solve_decision. Defined.
(** *** Objects used as dictionaries *)

(** An object created as [{}] and filled by assignment: its own
    properties, and the object its prototype was replaced with ([None]
    while the prototype is still [Object.prototype]).  The values hold
    the objects themselves, so a change made through a property is a
    change of the value kept there. *)
Record Obj (V : Type) := mkObj {
  own : gmap string V;
  proto : option V
}.
Arguments mkObj {V} own proto.
Arguments own {V} o.
Arguments proto {V} o.

(** The literal [{}]. *)
Definition emptyObject {V} : Obj V := mkObj ∅ None.

(** A thrown [TypeError]. *)
Inductive Thrown := TypeError.

(** Sequencing of statements that may throw. *)
Definition tryBind {A B} (r : Thrown + A) (k : A → Thrown + B) : Thrown + B :=
  match r with
  | inl e => inl e
  | inr a => k a
  end.

Notation "'let!' x := r 'in' k" := (tryBind r (λ x, k))
  (at level 10, x name, r at level 100, k at level 200, only parsing).

(** [o.hasOwnProperty(k)].  The method is looked up like any property:
    on [o] itself, then along the prototypes.  A property of that name
    of [o]'s own, or of the object put in place of the prototype
    ([shadowed] says so of that object and of what is behind it), holds a
    dictionary value, not a function, and calling it throws.  Otherwise
    the method of [Object.prototype] answers whether [k] is an own
    property. *)
Definition hasOwnProperty {V} (shadowed : V → bool) (o : Obj V) (k : string)
    : Thrown + bool :=
  if bool_decide (is_Some (own o !! "hasOwnProperty")) then inl TypeError
  else if from_option shadowed false (proto o) then inl TypeError
  else inr (bool_decide (is_Some (own o !! k))).

(** [o[k] = v] for a value [v] that is an object.  The name ["__proto__"]
    is the accessor of [Object.prototype]: the assignment replaces the
    prototype of [o] and makes no own property.  Every other name becomes
    an own property (what the prototypes hold under it is writable). *)
Definition assign {V} (o : Obj V) (k : string) (v : V) : Obj V :=
  if bool_decide (k = "__proto__")
  then mkObj (own o) (Some v)
  else mkObj (<[k := v]> (own o)) (proto o).

(** [o[k]] where a property of the value is used next: ["__proto__"]
    reads the prototype.  The code reads a name only after the assignment
    that provides it; a read that finds nothing throws at the use. *)
Definition read {V} (o : Obj V) (k : string) : Thrown + V :=
  match (if bool_decide (k = "__proto__") then proto o else own o !! k) with
  | Some v => inr v
  | None => inl TypeError
  end.

(** A change made in place to the object read as [o[k]]. *)
Definition mutate {V} (o : Obj V) (k : string) (f : V → V) : Obj V :=
  if bool_decide (k = "__proto__")
  then mkObj (own o) (f <$> proto o)
  else mkObj (alter f k (own o)) (proto o).

(** [list.reduce(callback, init)] with a callback that may throw. *)
Definition reduce {A B} (callback : B → A → Thrown + B) (init : B)
    (l : list A) : Thrown + B :=
  foldl (λ acc x, let! b := acc in callback b x) (inr init) l.

(** One entry of [FilesByRepository[repo]]: [{authors: {...}, types: Set}]. *)
Record FileEntry := mkFileEntry {
  authors : Obj CommitAuthor;
  types : gset string
}.

(** The truth value of an optional string in a condition: [undefined],
    [null] and the empty string are falsy. *)
Definition truthy (s : option string) : option string :=
  match s with
  | Some "" => None
  | other => other
  end.

(** *** archiveRelease *)

(** [ReleaseStatus] of [app/types]. *)
Inductive ReleaseStatus := Active | Archived.

Record RequestData := mkRequestData {
  status : ReleaseStatus;
  projects : list string;
  version : string
}.

Record RequestOptions := mkRequestOptions {
  method : string;
  data : RequestData
}.

(** What a rejected [requestPromise] throws: [error.responseJSON] may be
    absent, and so may its [detail]. *)
Record ResponseJSON := mkResponseJSON {
  detail : option string
}.

Record RequestError := mkRequestError {
  responseJSON : option ResponseJSON
}.

(** The collaborators an action talks to: the indicator toasts, the API
    client and the browser history.  A request answers with its rejection
    ([inl]) or resolves ([inr]). *)
Inductive Call : Type → Type :=
| addLoadingMessage (msg : string) : Call unit
| addSuccessMessage (msg : string) : Call unit
| addErrorMessage (msg : string) : Call unit
| requestPromise (path : string) (options : RequestOptions)
    : Call (RequestError + unit)
| browserHistory_push (path : string) : Call unit.

(** An asynchronous function body: a finite tree of calls, each continued
    with its answer. *)
Inductive Async (A : Type) : Type :=
| Return (a : A)
| Await {X : Type} (call : Call X) (k : X → Async A).
Arguments Return {A} a.
Arguments Await {A X} call k.

Section Archive.

(** [t] from [app/locale]: the localisation of a message. *)
Context (t : string → string).

(** [error.responseJSON?.detail ?? t('Release could not be be archived.')] *)
Definition errorMessage (error : RequestError) : string :=
  match responseJSON error with
  | Some body =>
      match detail body with
      | Some d => d
      | None => t "Release could not be be archived."
      end
  | None => t "Release could not be be archived."
  end.

Definition archiveRelease (orgId version : string) : Async unit :=
  Await (addLoadingMessage (t "Archiving Release...")) (λ _,
  Await (requestPromise ("/organizations/" +:+ orgId +:+ "/releases/")
           (mkRequestOptions "POST" (mkRequestData Archived [] version)))
    (λ result,
  match result with
  | inr _ =>
      Await (addSuccessMessage (t "Release was successfully archived.")) (λ _,
      Await (browserHistory_push
               ("/organizations/" +:+ orgId +:+ "/releases/")) (λ _,
      Return tt))
  | inl error =>
      Await (addErrorMessage (errorMessage error)) (λ _,
      Return tt)
  end)).

End Archive.

(** Running an action against an API: the calls it made, in order. *)
Inductive Event :=
| Loading (msg : string)
| Success (msg : string)
| Error (msg : string)
| Request (path : string) (options : RequestOptions)
| Push (path : string).

Definition answer (api : string → RequestOptions → RequestError + unit)
    {X} (call : Call X) : Event * X :=
  match call with
  | addLoadingMessage msg => (Loading msg, tt)
  | addSuccessMessage msg => (Success msg, tt)
  | addErrorMessage msg => (Error msg, tt)
  | requestPromise path options => (Request path options, api path options)
  | browserHistory_push path => (Push path, tt)
  end.

Fixpoint run (api : string → RequestOptions → RequestError + unit)
    {A} (body : Async A) : list Event :=
  match body with
  | Return _ => []
  | Await call k =>
      let '(event, x) := answer api call in event :: run api (k x)
  end.

Definition isRequest (e : Event) : bool :=
  match e with Request _ _ => true | _ => false end.

Definition visibleErrors (trace : list Event) : list string :=
  omap (λ e, match e with Error msg => Some msg | _ => None end) trace.

(** *** getFilesByRepository and getCommitsByRepository *)

Section Grouping.

Context (t : string → string).

(** The callback of [fileList.reduce] in [getFilesByRepository], statement
    by statement. *)
Definition filesReducer (filesByRepository : Obj (Obj FileEntry))
    (file : CommitFile) : Thrown + Obj (Obj FileEntry) :=
  let '(mkCommitFile filename repoName author type) := file in
  (* if (!filesByRepository.hasOwnProperty(repoName)) ... = {} *)
  let! has :=
    hasOwnProperty (λ files, bool_decide (is_Some (own files !! "hasOwnProperty")))
      filesByRepository repoName in
  let filesByRepository :=
    if has then filesByRepository
    else assign filesByRepository repoName emptyObject in
  (* if (!filesByRepository[repoName].hasOwnProperty(filename)) ... *)
  let! files := read filesByRepository repoName in
  let! has := hasOwnProperty (λ _, false) files filename in
  let filesByRepository :=
    if has then filesByRepository
    else mutate filesByRepository repoName (λ files,
           assign files filename (mkFileEntry emptyObject ∅)) in
  (* if (author.email) ....authors[author.email] = author *)
  let filesByRepository :=
    match truthy (author_email author) with
    | Some email =>
        mutate filesByRepository repoName (λ files,
          mutate files filename (λ entry,
            mkFileEntry (assign (authors entry) email author) (types entry)))
    | None => filesByRepository
    end in
  (* ....types.add(type) *)
  inr (mutate filesByRepository repoName (λ files,
         mutate files filename (λ entry,
           mkFileEntry (authors entry) ({[type]} ∪ types entry)))).

Definition getFilesByRepository (fileList : list CommitFile)
    : Thrown + Obj (Obj FileEntry) :=
  reduce filesReducer emptyObject fileList.

(** [commit.repository?.name ?? t('unknown')] *)
Definition repositoryName (commit : Commit) : string :=
  match commit_repository commit with
  | Some repository =>
      match repository_name repository with
      | Some n => n
      | None => t "unknown"
      end
  | None => t "unknown"
  end.

(** The callback of [commitList.reduce] in [getCommitsByRepository].  An
    array put in place of the prototype has no property named
    [hasOwnProperty] of its own. *)
Definition commitsReducer (commitsByRepository : Obj (list Commit))
    (commit : Commit) : Thrown + Obj (list Commit) :=
  let repositoryName := repositoryName commit in
  let! has := hasOwnProperty (λ _, false) commitsByRepository repositoryName in
  let commitsByRepository :=
    if has then commitsByRepository
    else assign commitsByRepository repositoryName [] in
  let! _ := read commitsByRepository repositoryName in
  inr (mutate commitsByRepository repositoryName
         (λ bucket, bucket ++ [commit])).

Definition getCommitsByRepository (commitList : list Commit)
    : Thrown + Obj (list Commit) :=
  reduce commitsReducer emptyObject commitList.

End Grouping.

(** *** Vocabulary of the properties *)


End ReleaseDetailUtils.

(** ** The groupings over finite maps *)

(** The two groupings as folds over finite maps.  This is what
    [getCommitsByRepository] and [getFilesByRepository] compute on plain
    names, those that are neither [__proto__] nor [hasOwnProperty]; the
    properties of the two functions are stated through it. *)

Module PlainGrouping.
Import ReleaseDetailUtils.

(** The entry of a file: its authors by email and its change types. *)
Record PlainEntry := mkPlainEntry {
  plain_authors : gmap string CommitAuthor;
  plain_types : gset string
}.

#[global] Instance PlainEntry_inhabited : Inhabited PlainEntry :=
  populate (mkPlainEntry ∅ ∅).

(** A finite map has the key. *)
Definition ownKey {V} (o : gmap string V) (k : string) : bool :=
  bool_decide (is_Some (o !! k)).

Section Grouping.

Context (t : string → string).

(** One file change added to a grouping of file changes. *)
Definition groupFilesStep
    (filesByRepository : gmap string (gmap string PlainEntry))
    (file : CommitFile) : gmap string (gmap string PlainEntry) :=
  let '(mkCommitFile filename repoName author type) := file in
  let filesByRepository :=
    if ownKey filesByRepository repoName
    then filesByRepository
    else <[repoName := ∅]> filesByRepository in
  let filesByRepository :=
    if ownKey (filesByRepository !!! repoName) filename
    then filesByRepository
    else alter (insert filename (mkPlainEntry ∅ ∅)) repoName filesByRepository in
  let filesByRepository :=
    match truthy (author_email author) with
    | Some email =>
        alter (alter (λ entry,
            mkPlainEntry (<[email := author]> (plain_authors entry)) (plain_types entry))
          filename) repoName filesByRepository
    | None => filesByRepository
    end in
  alter (alter (λ entry,
      mkPlainEntry (plain_authors entry) ({[type]} ∪ plain_types entry))
    filename) repoName filesByRepository.

Definition groupFiles (fileList : list CommitFile)
    : gmap string (gmap string PlainEntry) :=
  foldl groupFilesStep ∅ fileList.

(** One commit added to a grouping of commits. *)
Definition groupCommitsStep (commitsByRepository : gmap string (list Commit))
    (commit : Commit) : gmap string (list Commit) :=
  let repositoryName := repositoryName t commit in
  let commitsByRepository :=
    if ownKey commitsByRepository repositoryName
    then commitsByRepository
    else <[repositoryName := []]> commitsByRepository in
  alter (λ bucket, bucket ++ [commit]) repositoryName commitsByRepository.

Definition groupCommits (commitList : list Commit)
    : gmap string (list Commit) :=
  foldl groupCommitsStep ∅ commitList.

End Grouping.

(** The entry of file [n] of repository [r], if both exist. *)
Definition lookup2 (m : gmap string (gmap string PlainEntry)) (r n : string)
    : option PlainEntry :=
  m !! r ≫= (.!! n).

(** The changes of file [n] of repository [r], in input order. *)
Definition changesOf (r n : string) (l : list CommitFile) : list CommitFile :=
  filter (λ f, repoName f = r ∧ filename f = n) l.

(** The author of the last change, among [changes], whose author has the
    non-empty email [k]. *)
Definition lastAuthor (k : string) (changes : list CommitFile)
    : option CommitAuthor :=
  author <$>
    last (filter (λ f, truthy (author_email (author f)) = Some k) changes).

(** What one change does to the entry of its file. *)
Definition entryStep (entry : PlainEntry) (file : CommitFile) : PlainEntry :=
  mkPlainEntry
    (match truthy (author_email (author file)) with
     | Some email => <[email := author file]> (plain_authors entry)
     | None => plain_authors entry
     end)
    ({[type file]} ∪ plain_types entry).

Definition entryOf (changes : list CommitFile) : PlainEntry :=
  foldl entryStep (mkPlainEntry ∅ ∅) changes.

(** Two changes write the same author key: same repository, same file,
    same non-empty email. *)
Definition sameAuthorKey (f g : CommitFile) : Prop :=
  repoName f = repoName g ∧ filename f = filename g
  ∧ is_Some (truthy (author_email (author f)))
  ∧ truthy (author_email (author f)) = truthy (author_email (author g)).

(** Changes that write the same author key carry the same author. *)
Definition authorsAgree (fileList : list CommitFile) : Prop :=
  Forall (λ f,
    Forall (λ g, sameAuthorKey f g → author f = author g) fileList)
    fileList.

#[global] Instance authorsAgree_dec fileList : Decision (authorsAgree fileList).
Proof. unfold authorsAgree, sameAuthorKey. apply _. Defined.

(** The sum of the bucket sizes of a grouping. *)
Definition bucketTotal (m : gmap string (list Commit)) : nat :=
  map_fold (λ _ bucket n, length bucket + n) 0 m.

(** Two groupings put together: buckets of the same key are appended. *)
Definition appendBuckets (m1 m2 : gmap string (list Commit))
    : gmap string (list Commit) :=
  union_with (λ b1 b2, Some (b1 ++ b2)) m1 m2.

(** Two entries of one file put together, the second written later. *)
Definition mergeEntries (e1 e2 : PlainEntry) : PlainEntry :=
  mkPlainEntry (plain_authors e2 ∪ plain_authors e1) (plain_types e1 ∪ plain_types e2).

(** *** From finite maps to objects *)

(** A name that reaches neither the prototype nor the inherited method. *)
Definition plainName (k : string) : Prop :=
  k ≠ "__proto__" ∧ k ≠ "hasOwnProperty".

(** Inputs with plain names only; an email is a key of an object whose
    methods are never called, so only [__proto__] is special there. *)
Definition plainCommits (t : string → string) (l : list Commit) : Prop :=
  Forall (λ c, plainName (repositoryName t c)) l.

Definition plainFile (f : CommitFile) : Prop :=
  plainName (repoName f) ∧ plainName (filename f)
  ∧ author_email (author f) ≠ Some "__proto__".

Definition plainFiles (l : list CommitFile) : Prop := Forall plainFile l.

#[global] Instance plainCommits_dec t l : Decision (plainCommits t l).
Proof. unfold plainCommits, plainName. apply _. Defined.

#[global] Instance plainFiles_dec l : Decision (plainFiles l).
Proof. unfold plainFiles, plainFile, plainName. apply _. Defined.

(** The object with the given own properties and the prototype it was
    created with. *)
Definition objectOf {V} (m : gmap string V) : Obj V := mkObj m None.

Definition entryObject (e : PlainEntry) : FileEntry :=
  mkFileEntry (objectOf (plain_authors e)) (plain_types e).

(** The object of one repository's files. *)
Definition filesOf (files : gmap string PlainEntry) : Obj FileEntry :=
  objectOf (entryObject <$> files).

Definition filesObject (m : gmap string (gmap string PlainEntry))
    : Obj (Obj FileEntry) :=
  objectOf ((λ files, objectOf (entryObject <$> files)) <$> m).

(** The entry of file [n] of repository [r] among the own properties. *)
Definition entryAt (o : Obj (Obj FileEntry)) (r n : string)
    : option FileEntry :=
  own o !! r ≫= λ files, own files !! n.

(** Two entries of one file put together, the second written later. *)
Definition mergeFileEntries (e1 e2 : FileEntry) : FileEntry :=
  mkFileEntry
    (mkObj (own (authors e2) ∪ own (authors e1))
           (proto (authors e2) ∪ proto (authors e1)))
    (types e1 ∪ types e2).

(** The array left in place of the prototype by the commits of a
    repository named [__proto__]: the last of them alone. *)
Definition protoBucket (t : string → string) (l : list Commit)
    : option (list Commit) :=
  (λ c, [c]) <$> last (filter (λ c, repositoryName t c = "__proto__") l).

(** The object [getCommitsByRepository] returns when it returns. *)
Definition commitsObject (t : string → string) (l : list Commit)
    : Obj (list Commit) :=
  mkObj (delete "__proto__" (groupCommits t l)) (protoBucket t l).

(** A commit before the last one is of a repository named
    [hasOwnProperty]. *)
Definition methodShadowed (t : string → string) (l : list Commit) : Prop :=
  "hasOwnProperty" ∈ (repositoryName t <$> removelast l).

#[global] Instance methodShadowed_dec t l : Decision (methodShadowed t l).
Proof. unfold methodShadowed. apply _. Defined.

End PlainGrouping.

(** ** The release list view ([ReleasesList]) *)

Module ReleasesList.

(** A value found in [location.query], or placed in a request's query. *)
Inductive JsValue :=
| JsUndefined
| JsString (s : string)
| JsArray (items : list string)
| JsNumber (n : Z).

#[global] Instance JsValue_eq_dec : EqDecision JsValue.
Proof. solve_decision. Defined.

(** The truth value of a [JsValue] in a condition or under [||]. *)
Definition truthy (v : JsValue) : bool :=
  match v with
  | JsUndefined => false
  | JsString s => bool_decide (s ≠ "")
  | JsArray _ => true
  | JsNumber n => bool_decide (n ≠ 0%Z)
  end.

(** [defined] of [app/utils]: neither [undefined] nor [null]. *)
Definition defined (v : JsValue) : bool :=
  match v with
  | JsUndefined => false
  | _ => true
  end.

(** [o.k] on a query object: a missing key reads as [undefined]. *)
Definition get (o : gmap string JsValue) (k : string) : JsValue :=
  default JsUndefined (o !! k).

(** [pick] of lodash: the properties of [o] named in [keys]. *)
Definition pick (o : gmap string JsValue) (keys : list string)
    : gmap string JsValue :=
  filter (λ kv, kv.1 ∈ keys) o.

(** [undefined], [null] or a value. *)
Inductive Nullable (A : Type) :=
| Undefined
| Null
| Value (a : A).
Arguments Undefined {A}.
Arguments Null {A}.
Arguments Value {A} a.

(** The fields of a [Release] (and of its projects) kept from the payload. *)
Record ReleaseProject := mkReleaseProject {
  slug : string;
  hasHealthData : bool
}.

Record Release := mkRelease {
  version : string;
  dateCreated : string;
  newGroups : Z;
  projects : list ReleaseProject
}.

Record Organization := mkOrganization {
  organization_slug : string
}.

(** The props the view reads; [selection] is only handed on to the cards
    and is left out. *)
Record Props := mkProps {
  organization : Organization;
  location_query : gmap string JsValue
}.

Record State := mkState {
  releases : option (list Release);
  loadingHealth : bool;
  reloading : bool;
  loading : bool;
  remainingRequests : Z;
  releasesPageLinks : Nullable string
}.

(** The response object of a request: [getResponseHeader] answers [null]
    for a header the response does not carry. *)
Record JqXHR := mkJqXHR {
  getResponseHeader : string → option string
}.

(** The argument of [onRequestSuccess]; [jqXHR] may be [undefined]. *)
Record Response := mkResponse {
  stateKey : string;
  data : list Release;
  jqXHR : option JqXHR
}.

(** One entry of [getEndpoints]: state key, path, and the query. *)
Record Endpoint := mkEndpoint {
  endpoint_stateKey : string;
  endpoint_path : string;
  endpoint_query : gmap string JsValue
}.

(** What [renderInnerBody] returns. *)
Record ReleaseCard := mkReleaseCard {
  card_release : Release;
  card_orgSlug : string;
  card_location_query : gmap string JsValue;
  card_reloading : bool;
  card_key : string;
  card_showHealthPlaceholders : bool
}.

Inductive Element :=
| LoadingIndicator
| EmptyStateWarning (small : bool) (children : string)
| ReleaseLanding (organization : Organization)
| ReleaseCards (cards : list ReleaseCard).

Definition getQuery (props : Props) : option string :=
  match get (location_query props) "query" with
  | JsString query => Some query
  | _ => None
  end.

Definition getSort (props : Props) : string :=
  match get (location_query props) "sort" with
  | JsString sort => sort
  | _ => "date"
  end.

Definition getEndpoints (props : Props) : list Endpoint :=
  let statsPeriod := get (location_query props) "statsPeriod" in
  let sort := getSort props in
  let query :=
    <["flatten" := JsNumber (if bool_decide (sort = "date") then 0 else 1)]>
    (<["health" := JsNumber 1]>
    (<["per_page" := JsNumber 25]>
    (<["summaryStatsPeriod" := statsPeriod]>
    (pick (location_query props)
       ["project"; "environment"; "cursor"; "query"; "sort";
        "healthStatsPeriod"; "healthStat"])))) in
  let path :=
    "/organizations/" +:+ organization_slug (organization props)
      +:+ "/releases/" in
  let endpoints := [mkEndpoint "releasesWithHealth" path query] in
  if bool_decide (sort = "date")
  then endpoints ++
       [mkEndpoint "releasesWithoutHealth" path
          (<["health" := JsNumber 0]> query)]
  else endpoints.

(** [jqXHR?.getResponseHeader('Link')] *)
Definition linkHeader (jqXHR : option JqXHR) : Nullable string :=
  match jqXHR with
  | None => Undefined
  | Some xhr =>
      match getResponseHeader xhr "Link" with
      | Some link => Value link
      | None => Null
      end
  end.

(** The object handed to [this.setState] by [onRequestSuccess]. *)
Record StateUpdate := mkStateUpdate {
  update_reloading : bool;
  update_loading : bool;
  update_loadingHealth : bool;
  update_releases : list Release;
  update_releasesPageLinks : Nullable string
}.

(** [this.setState(update)]: the named fields are replaced. *)
Definition setState (state : State) (update : StateUpdate) : State :=
  {| reloading := update_reloading update;
     loading := update_loading update;
     loadingHealth := update_loadingHealth update;
     releases := Some (update_releases update);
     releasesPageLinks := update_releasesPageLinks update;
     remainingRequests := remainingRequests state |}.

(** The body of [onRequestSuccess]: the state update it commits, if any. *)
Definition onRequestSuccess_update (state : State) (response : Response)
    : option StateUpdate :=
  let remainingRequests := remainingRequests state in
  if bool_decide (stateKey response = "releasesWithHealth")
     || bool_decide (remainingRequests = 1%Z)
  then Some {| update_reloading := false;
               update_loading := false;
               update_loadingHealth :=
                 bool_decide (stateKey response = "releasesWithoutHealth");
               update_releases := data response;
               update_releasesPageLinks := linkHeader (jqXHR response) |}
  else None.

Definition onRequestSuccess (state : State) (response : Response) : State :=
  match onRequestSuccess_update state response with
  | Some update => setState state update
  | None => state
  end.

(** [!releases?.length] *)
Definition noLength (releases : option (list Release)) : bool :=
  match releases with
  | Some (_ :: _) => false
  | _ => true
  end.

Definition shouldShowLoadingIndicator (state : State) : bool :=
  (loading state && negb (reloading state))
  || (loading state && noLength (releases state)).

Section Render.

(** Collaborators of [renderEmptyMessage]: [t] of [app/locale],
    [getRelativeSummary] of the time range selector's utilities,
    [String.prototype.toLowerCase] and [DEFAULT_STATS_PERIOD] of
    [app/constants]. *)
Context (t : string → string).
Context (getRelativeSummary : JsValue → string).
Context (toLowerCase : string → string).
Context (DEFAULT_STATS_PERIOD : string).

Definition renderEmptyMessage (props : Props) : Element :=
  let statsPeriod := get (location_query props) "statsPeriod" in
  let searchQuery := getQuery props in
  let activeSort := getSort props in
  match searchQuery with
  | Some (String c q) =>
      EmptyStateWarning true
        (t "There are no releases that match" +:+ ": '"
           +:+ String c q +:+ "'.")
  | _ =>
  if bool_decide (activeSort = "users_24h") then
    EmptyStateWarning true
      (t "There are no releases with active user data (users in the last 24 hours).")
  else if bool_decide (activeSort ≠ "date") then
    let relativePeriod :=
      toLowerCase (getRelativeSummary
        (if truthy statsPeriod then statsPeriod
         else JsString DEFAULT_STATS_PERIOD)) in
    EmptyStateWarning true
      (t "There are no releases with data in the" +:+ " "
         +:+ relativePeriod +:+ ".")
  else if defined statsPeriod
          && negb (bool_decide (statsPeriod = JsString "14d")) then
    EmptyStateWarning true (t "There are no releases.")
  else ReleaseLanding (organization props)
  end.

(** The array literal bound to [releases] inside [renderInnerBody]. *)
Definition renderInnerBody_releases : list Release := [
  mkRelease "Premiere Pro@14.7.0+8" "2020-11-06T08:37:14Z" 1
    [mkReleaseProject "dva-premierepro" true];
  mkRelease "Premiere Pro (Beta)@14.7.0+8" "2020-11-06T06:02:26Z" 1
    [mkReleaseProject "dva-premierepro" true];
  mkRelease "Premiere Pro@14.6.0+49" "2020-11-05T23:12:21.451819Z" 3
    [mkReleaseProject "dva-premierepro" true];
  mkRelease "Premiere Pro (Beta)@14.7.0+7" "2020-11-05T05:56:18Z" 6
    [mkReleaseProject "dva-premierepro" true];
  mkRelease "Premiere Pro (Beta)@14.7.0+6" "2020-11-04T06:45:26Z" 6
    [mkReleaseProject "dva-premierepro" true];
  mkRelease "Premiere Pro@14.7.0+6" "2020-11-04T06:00:00Z" 0
    [mkReleaseProject "dva-premierepro" true];
  mkRelease "Premiere Pro@14.6.0+48" "2020-11-03T22:00:00Z" 2
    [mkReleaseProject "dva-premierepro" true];
  mkRelease "Premiere Pro@14.7.0+1" "2020-11-03T10:00:00Z" 0
    [mkReleaseProject "dva-premierepro" true];
  mkRelease "Premiere Pro (Beta)@14.7.0+5" "2020-11-03T08:00:21Z" 1
    [mkReleaseProject "dva-premierepro" true];
  mkRelease "14.1.0" "2020-11-03T00:00:00Z" 0
    [mkReleaseProject "dva-premierepro" true];
  mkRelease "Premiere Pro@14.7.0+4" "2020-11-02T22:00:00Z" 0
    [mkReleaseProject "dva-premierepro" true];
  mkRelease "Premiere Pro (Beta)@14.7.0+3" "2020-11-02T08:40:16Z" 2
    [mkReleaseProject "dva-premierepro" true];
  mkRelease "Premiere Pro (Beta)@14.7.0+4" "2020-11-02T06:47:05Z" 2
    [mkReleaseProject "dva-premierepro" true];
  mkRelease "Premiere Pro@14.7.0+3" "2020-11-01T12:00:00Z" 0
    [mkReleaseProject "dva-premierepro" true];
  mkRelease "Premiere Pro (Beta)@14.7.0+2" "2020-10-31T11:00:00Z" 0
    [mkReleaseProject "dva-premierepro" true];
  mkRelease "Premiere Pro@14.6.0+47" "2020-10-30T07:40:32Z" 3
    [mkReleaseProject "dva-premierepro" true];
  mkRelease "Premiere Pro (Beta)@14.7.0+1" "2020-10-29T17:00:00Z" 0
    [mkReleaseProject "dva-premierepro" true];
  mkRelease "Premiere Pro@14.6.0+46" "2020-10-29T06:00:00Z" 0
    [mkReleaseProject "dva-premierepro" true];
  mkRelease "Premiere Pro (Beta)@14.6.0+46" "2020-10-29T05:57:12Z" 33
    [mkReleaseProject "dva-premierepro" true];
  mkRelease "14.0.3" "2020-10-28T23:00:00Z" 0
    [mkReleaseProject "dva-premierepro" true];
  mkRelease "Premiere Pro@14.3.0+38" "2020-10-28T14:00:00Z" 0
    [mkReleaseProject "dva-premierepro" true];
  mkRelease "Premiere Pro@14.6.0+45" "2020-10-28T12:00:00Z" 0
    [mkReleaseProject "dva-premierepro" true];
  mkRelease "Premiere Pro@1.5.34+48" "2020-10-28T10:00:00Z" 1
    [mkReleaseProject "dva-premierepro" true];
  mkRelease "Premiere Pro (Beta)@14.6.0+45" "2020-10-28T06:16:35Z" 3
    [mkReleaseProject "dva-premierepro" true];
  mkRelease "Premiere Pro (Beta)@14.6.0+44" "2020-10-28T05:02:43Z" 6
    [mkReleaseProject "dva-premierepro" true]
].

(** One [<ReleaseCard>]; reading [release.projects[0].slug] of a release
    without projects is a [TypeError] ([None]). *)
Definition renderCard (props : Props) (state : State) (release : Release)
    : option ReleaseCard :=
  match projects release with
  | project :: _ =>
      Some {| card_release := release;
              card_orgSlug := organization_slug (organization props);
              card_location_query := location_query props;
              card_reloading := reloading state;
              card_key := version release +:+ "-" +:+ slug project;
              card_showHealthPlaceholders := loadingHealth state |}
  | [] => None
  end.

Definition renderInnerBody (props : Props) (state : State) : option Element :=
  if shouldShowLoadingIndicator state then Some LoadingIndicator
  else
    let releases := renderInnerBody_releases in
    if noLength (Some releases) then Some (renderEmptyMessage props)
    else ReleaseCards <$> mapM (renderCard props state) releases.

End Render.

(** *** The base view's request counter *)

(** Modelled from the spec: the bookkeeping of [AsyncView], whose source is
    not part of the view's file.  Loading a navigation issues one request
    per endpoint and enters the state "Loading (both pending)":
    [remainingRequests] counts the requests still outstanding. *)
Definition fetchData (props : Props) (state : State) : State :=
  {| releases := releases state;
     loadingHealth := loadingHealth state;
     reloading := reloading state;
     loading := true;
     remainingRequests := Z.of_nat (length (getEndpoints props));
     releasesPageLinks := releasesPageLinks state |}.

(** Modelled from the spec: the arriving request leaves the outstanding
    ones before the view's [onRequestSuccess] runs.  The spec's state
    "PartiallyLoaded (list arrived, health pending)" is the one in which
    the list-only response is committed with [loadingHealth] set (the flag
    behind the cards' [showHealthPlaceholders]), so the counter the hook
    reads no longer counts the response being handled. *)
Definition requestArrived (state : State) : State :=
  {| releases := releases state;
     loadingHealth := loadingHealth state;
     reloading := reloading state;
     loading := loading state;
     remainingRequests := remainingRequests state - 1;
     releasesPageLinks := releasesPageLinks state |}.

(** Modelled from the spec: a response's arrival, the counter first, the
    view's hook after it. *)
Definition handleRequestSuccess (state : State) (response : Response)
    : State :=
  onRequestSuccess (requestArrived state) response.

(** Modelled from the spec: the state after the responses of one
    navigation arrived in the order given. *)
Definition arrive (props : Props) (state : State)
    (responses : list Response) : State :=
  foldl handleRequestSuccess (fetchData props state) responses.

End ReleasesList.

(** ** The rest of [app/views/releases/detail/utils.tsx] *)

Module ReleaseDetailRequests.
Import ReleaseDetailUtils.

(** What a body returns when run against an API. *)
Fixpoint returned (api : string → RequestOptions → RequestError + unit)
    {A} (body : Async A) : A :=
  match body with
  | Return a => a
  | Await call k => returned api (k (answer api call).2)
  end.

(** One body after another. *)
Fixpoint andThen {A B} (body : Async A) (k : A → Async B) : Async B :=
  match body with
  | Return a => k a
  | Await call k' => Await call (λ x, andThen (k' x) k)
  end.

Section Restore.

Context (t : string → string).

(** [onSuccess] is an optional callback over the same collaborators; it
    returns ([None]) or throws a value ([Some]), which the [catch] of
    [restoreRelease] receives like a rejected request. *)
Definition restoreRelease (orgId version : string)
    (onSuccess : option (Async (option RequestError))) : Async unit :=
  Await (addLoadingMessage (t "Restoring Release...")) (λ _,
  Await (requestPromise ("/organizations/" +:+ orgId +:+ "/releases/")
           (mkRequestOptions "POST" (mkRequestData Active [] version)))
    (λ result,
  match result with
  | inr _ =>
      Await (addSuccessMessage (t "Release was successfully restored.")) (λ _,
      match onSuccess with
      | Some callback =>
          andThen callback (λ thrown,
          match thrown with
          | None => Return tt
          | Some error =>
              Await (addErrorMessage (errorMessage t error)) (λ _, Return tt)
          end)
      | None => Return tt
      end)
  | inl error =>
      Await (addErrorMessage (errorMessage t error)) (λ _,
      Return tt)
  end)).

End Restore.

Section Query.

(** [Object.values(URL_PARAM)] of [app/constants/globalSelectionHeader]. *)
Context (URL_PARAM : list string).

(** [getQuery({location, perPage = 40, activeRepository})]: the request
    query of the detail pages. *)
Definition getQuery (location_query : gmap string ReleasesList.JsValue)
    (perPage : option Z) (activeRepository : option Repository)
    : gmap string ReleasesList.JsValue :=
  let query :=
    <["per_page" := ReleasesList.JsNumber (default 40%Z perPage)]>
      (ReleasesList.pick location_query (URL_PARAM ++ ["cursor"])) in
  match activeRepository with
  | None => query
  | Some repository =>
      <["repo_name" :=
          match repository_name repository with
          | Some name => ReleasesList.JsString name
          | None => ReleasesList.JsUndefined
          end]> query
  end.

End Query.

(** [getReposToRender(repos, activeRepository)]; the name of the active
    repository may be [undefined]. *)
Definition getReposToRender (repos : list string)
    (activeRepository : option Repository) : list (option string) :=
  match activeRepository with
  | None => Some <$> repos
  | Some repository => [repository_name repository]
  end.

End ReleaseDetailRequests.

(** ** The rest of the release list view *)

Module ReleasesListNavigation.
Import ReleasesList.

(** [handleSearch]: the query of the location handed to [router.push]. *)
Definition handleSearch (props : Props) (query : string)
    : gmap string JsValue :=
  <["query" := JsString query]>
    (<["cursor" := JsUndefined]> (location_query props)).

(** [handleSort]: the query of the location handed to [router.push]. *)
Definition handleSort (props : Props) (sort : string)
    : gmap string JsValue :=
  <["sort" := JsString sort]>
    (<["cursor" := JsUndefined]> (location_query props)).

(** The props of the view at a location with the given query. *)
Definition atQuery (props : Props) (query : gmap string JsValue) : Props :=
  mkProps (organization props) query.

(** The fields of the state that the base view writes on its own
    ([loading], [reloading], [remainingRequests]); the view's own fields
    are written by [onRequestSuccess] alone. *)
Definition withBaseFields (loading reloading : bool) (remaining : Z)
    (state : State) : State :=
  {| releases := releases state;
     loadingHealth := loadingHealth state;
     reloading := reloading;
     loading := loading;
     remainingRequests := remaining;
     releasesPageLinks := releasesPageLinks state |}.

(** A run of the view: before each response the base view has left its
    fields at some values, then [onRequestSuccess] handles the response. *)
Definition handleAll (state : State)
    (arrivals : list (bool * bool * Z * Response)) : State :=
  foldl (λ s arrival,
           let '(loading, reloading, remaining, response) := arrival in
           onRequestSuccess (withBaseFields loading reloading remaining s)
             response)
        state arrivals.

(** The fields a committed response leaves in the state. *)
Definition shows (state : State) (response : Response) : Prop :=
  releases state = Some (data response)
  ∧ releasesPageLinks state = linkHeader (jqXHR response)
  ∧ loadingHealth state
    = bool_decide (stateKey response = "releasesWithoutHealth").

(** An arrival is committed when its response is the health-bearing one
    or the counter it is handled with is 1. *)
Definition commits (arrival : bool * bool * Z * Response) : Prop :=
  stateKey arrival.2 = "releasesWithHealth" ∨ arrival.1.2 = 1%Z.

#[global] Instance commits_dec arrival : Decision (commits arrival).
Proof. unfold commits. apply _. Defined.

(** No search is active: [query] is missing, not a string, or empty. *)
Definition noSearch (props : Props) : Prop :=
  getQuery props = None ∨ getQuery props = Some "".

End ReleasesListNavigation.

(** * Part II: properties *)

(** ** Grouping commits over finite maps *)

Module PlainCommits.
Import ReleaseDetailUtils PlainGrouping.

Section Properties.

Context (t : string → string).

Lemma groupCommitsStep_lookup (m : gmap string (list Commit)) c k :
  groupCommitsStep t m c !! k =
    if decide (repositoryName t c = k)
    then Some (default [] (m !! k) ++ [c])
    else m !! k.
Proof.
  unfold groupCommitsStep, ownKey.
  case_bool_decide as Hown; case_decide as Hk; subst.
  - destruct Hown as [b Hb]. by rewrite lookup_alter_eq, Hb.
  - by rewrite lookup_alter_ne.
  - apply eq_None_not_Some in Hown.
    by rewrite lookup_alter_eq, lookup_insert_eq, Hown.
  - by rewrite lookup_alter_ne, lookup_insert_ne.
Qed.

Lemma groupCommits_snoc l c :
  groupCommits t (l ++ [c]) =
    groupCommitsStep t (groupCommits t l) c.
Proof. unfold groupCommits. by rewrite foldl_snoc. Qed.

(** Every lookup of the result is decided by the input: a key has a bucket
    exactly when some commit carries it, and the bucket is the input
    filtered by that key. *)
Lemma groupCommits_lookup l k :
  groupCommits t l !! k =
    match filter (λ c, repositoryName t c = k) l with
    | [] => None
    | b => Some b
    end.
Proof.
  induction l as [|c l IH] using rev_ind; [done|].
  rewrite groupCommits_snoc, groupCommitsStep_lookup, IH.
  rewrite filter_app, filter_cons, filter_nil.
  case_decide as Hk.
  - destruct (filter _ l); done.
  - by rewrite app_nil_r.
Qed.

End Properties.

End PlainCommits.

(** ** Grouping file changes over finite maps *)

Module PlainFiles.
Import ReleaseDetailUtils PlainGrouping.

Lemma alter_lookup_insert {V} (f : V → V) (m : gmap string V) k x :
  m !! k = Some x → alter f k m = <[k := f x]> m.
Proof.
  intros H. apply map_eq; intros j. destruct (decide (k = j)) as [<-|].
  - by rewrite lookup_alter_eq, lookup_insert_eq, H.
  - by rewrite lookup_alter_ne, lookup_insert_ne.
Qed.

Lemma if_bool_decide_true (P : Prop) `{Decision P} {A} (x y : A) :
  P → (if bool_decide P then x else y) = x.
Proof. intros. by rewrite bool_decide_eq_true_2. Qed.

Lemma if_bool_decide_false (P : Prop) `{Decision P} {A} (x y : A) :
  ¬ P → (if bool_decide P then x else y) = y.
Proof. intros. by rewrite bool_decide_eq_false_2. Qed.

Ltac alter_to_insert :=
  repeat match goal with
  | |- context [alter ?f ?k ?m] =>
      erewrite (alter_lookup_insert f m k);
      [|rewrite ?lookup_insert_eq; first [eassumption | reflexivity]]
  end.

Lemma groupFilesStep_eq (m : gmap string (gmap string PlainEntry)) f :
  groupFilesStep m f =
    <[repoName f :=
        <[filename f :=
            entryStep
              (default (mkPlainEntry ∅ ∅)
                 (lookup2 m (repoName f) (filename f))) f]>
          (default ∅ (m !! repoName f))]> m.
Proof.
  destruct f as [n r a ty]. unfold groupFilesStep, ownKey, entryStep, lookup2.
  cbn [filename repoName author type].
  destruct (m !! r) as [inner|] eqn:Hr.
  - rewrite (if_bool_decide_true (is_Some (Some inner))) by done.
    rewrite (lookup_total_correct _ _ _ Hr). cbn [default mbind option_bind].
    destruct (inner !! n) as [e|] eqn:Hn.
    + rewrite if_bool_decide_true by done.
      destruct (truthy _) as [email|]; cbn [default];
        alter_to_insert; by rewrite ?insert_insert_eq.
    + rewrite if_bool_decide_false by (by intros [? ?]).
      destruct (truthy _) as [email|]; cbn [default];
        alter_to_insert; by rewrite ?insert_insert_eq.
  - rewrite (if_bool_decide_false (is_Some None)) by (by intros [? ?]).
    rewrite lookup_total_insert_eq, lookup_empty.
    rewrite if_bool_decide_false by (by intros [? ?]).
    cbn [default mbind option_bind].
    destruct (truthy _) as [email|]; cbn [default];
      alter_to_insert; by rewrite ?insert_insert_eq.
Qed.

Lemma groupFiles_snoc l f :
  groupFiles (l ++ [f]) = groupFilesStep (groupFiles l) f.
Proof. unfold groupFiles. by rewrite foldl_snoc. Qed.

Lemma groupFiles_repo l r :
  is_Some (groupFiles l !! r) ↔ ∃ f, f ∈ l ∧ repoName f = r.
Proof.
  induction l as [|f l IH] using rev_ind.
  - unfold groupFiles; simpl. rewrite lookup_empty.
    split; [by intros [? ?]|]. intros (f & Hf & _). by apply not_elem_of_nil in Hf.
  - rewrite groupFiles_snoc, groupFilesStep_eq.
    destruct (decide (repoName f = r)) as [E|E].
    + rewrite E, lookup_insert_eq. split; [|done].
      intros _. exists f. split; [|done]. apply elem_of_app. right. by left.
    + rewrite lookup_insert_ne by done. rewrite IH.
      split; intros (g & Hg & Hr); exists g; (split; [|done]).
      * apply elem_of_app. by left.
      * apply elem_of_app in Hg as [Hg|Hg]; [done|].
        apply list_elem_of_singleton in Hg. congruence.
Qed.

Lemma groupFiles_entry l r n :
  lookup2 (groupFiles l) r n =
    match changesOf r n l with
    | [] => None
    | cs => Some (entryOf cs)
    end.
Proof.
  induction l as [|f l IH] using rev_ind; [done|].
  rewrite groupFiles_snoc, groupFilesStep_eq.
  unfold changesOf in *. rewrite filter_app, filter_cons, filter_nil.
  unfold lookup2 at 1.
  destruct (decide (repoName f = r)) as [Er|Er].
  - rewrite Er, lookup_insert_eq. cbn [mbind option_bind].
    destruct (decide (filename f = n)) as [En|En].
    + rewrite En, lookup_insert_eq. rewrite decide_True by done.
      subst r n. rewrite IH.
      destruct (filter _ l) as [|c cs] eqn:Ecs; cbn [default app]; [done|].
      unfold entryOf, id. by rewrite (app_comm_cons cs [f] c), foldl_snoc.
    + rewrite lookup_insert_ne by done. rewrite decide_False by tauto.
      rewrite app_nil_r, <- IH. unfold lookup2.
      by destruct (groupFiles l !! r).
  - rewrite lookup_insert_ne by done. rewrite decide_False by tauto.
    by rewrite app_nil_r, <- IH.
Qed.

Lemma entryOf_snoc cs f : entryOf (cs ++ [f]) = entryStep (entryOf cs) f.
Proof. unfold entryOf. by rewrite foldl_snoc. Qed.

Lemma truthy_nonempty s k : truthy s = Some k → s = Some k ∧ k ≠ "".
Proof. destruct s as [[|c s']|]; cbn; intros [= <-]; done. Qed.

Lemma entryOf_authors cs k : plain_authors (entryOf cs) !! k = lastAuthor k cs.
Proof.
  unfold lastAuthor.
  induction cs as [|f cs IH] using rev_ind; [done|].
  rewrite entryOf_snoc, filter_app, filter_cons, filter_nil.
  unfold entryStep; cbn [plain_authors].
  destruct (truthy (author_email (author f))) as [e|] eqn:He.
  - destruct (decide (e = k)) as [->|Hne].
    + rewrite lookup_insert_eq, decide_True by done. by rewrite last_snoc.
    + rewrite lookup_insert_ne by done. rewrite decide_False by congruence.
      by rewrite app_nil_r.
  - rewrite decide_False by congruence. by rewrite app_nil_r.
Qed.

Lemma entryOf_types cs ty :
  ty ∈ plain_types (entryOf cs) ↔ ∃ f, f ∈ cs ∧ type f = ty.
Proof.
  induction cs as [|f cs IH] using rev_ind.
  - split; [set_solver|]. intros (f & Hf & _). by apply not_elem_of_nil in Hf.
  - rewrite entryOf_snoc. unfold entryStep; cbn [plain_types].
    rewrite elem_of_union, elem_of_singleton, IH.
    split.
    + intros [->|(g & Hg & <-)].
      * exists f. split; [|done]. apply elem_of_app. right. by left.
      * exists g. split; [|done]. apply elem_of_app. by left.
    + intros (g & Hg & <-). apply elem_of_app in Hg as [Hg|Hg].
      * right. by exists g.
      * left. apply list_elem_of_singleton in Hg. by subst g.
Qed.

Lemma lastAuthor_Some k cs a :
  lastAuthor k cs = Some a →
  ∃ f, f ∈ cs ∧ truthy (author_email (author f)) = Some k ∧ author f = a.
Proof.
  unfold lastAuthor. destruct (last _) as [f|] eqn:Hlast; [|done].
  intros [= <-]. exists f.
  apply last_Some_elem_of, list_elem_of_filter in Hlast. tauto.
Qed.

Lemma lastAuthor_elem k cs f :
  f ∈ cs → truthy (author_email (author f)) = Some k →
  is_Some (lastAuthor k cs).
Proof.
  intros Hf Hk. unfold lastAuthor.
  apply fmap_is_Some, last_is_Some. intros E.
  assert (f ∈ filter (λ f, truthy (author_email (author f)) = Some k) cs)
    as Hin by by apply list_elem_of_filter.
  rewrite E in Hin. by apply not_elem_of_nil in Hin.
Qed.

Lemma lastAuthor_agree k cs1 cs2 :
  cs1 ≡ₚ cs2 →
  (∀ f g, f ∈ cs1 → g ∈ cs1 →
     truthy (author_email (author f)) = Some k →
     truthy (author_email (author g)) = Some k → author f = author g) →
  lastAuthor k cs1 = lastAuthor k cs2.
Proof.
  intros Hp Hagree.
  destruct (lastAuthor k cs1) as [a1|] eqn:E1.
  - apply lastAuthor_Some in E1 as (f & Hf & Hk & <-).
    assert (f ∈ cs2) as Hf2 by by rewrite <- Hp.
    destruct (lastAuthor_elem _ _ _ Hf2 Hk) as [a2 E2]. rewrite E2.
    apply lastAuthor_Some in E2 as (g & Hg & Hk' & <-).
    f_equal. apply Hagree; [done| by rewrite Hp |done..].
  - destruct (lastAuthor k cs2) as [a2|] eqn:E2; [|done].
    apply lastAuthor_Some in E2 as (g & Hg & Hk' & <-).
    assert (g ∈ cs1) as Hg1 by by rewrite Hp.
    destruct (lastAuthor_elem _ _ _ Hg1 Hk') as [a1 E1']. congruence.
Qed.

Lemma entryOf_agree cs1 cs2 :
  cs1 ≡ₚ cs2 →
  (∀ f g k, f ∈ cs1 → g ∈ cs1 →
     truthy (author_email (author f)) = Some k →
     truthy (author_email (author g)) = Some k → author f = author g) →
  entryOf cs1 = entryOf cs2.
Proof.
  intros Hp Hagree.
  assert (plain_authors (entryOf cs1) = plain_authors (entryOf cs2)) as Ha.
  { apply map_eq; intros k. rewrite !entryOf_authors.
    apply lastAuthor_agree; [done|]. intros f g. by apply Hagree. }
  assert (plain_types (entryOf cs1) = plain_types (entryOf cs2)) as Ht.
  { apply set_eq; intros ty. rewrite !entryOf_types.
    by setoid_rewrite Hp. }
  destruct (entryOf cs1), (entryOf cs2); simpl in *; congruence.
Qed.

Lemma authorsAgree_elim l :
  authorsAgree l →
  ∀ f g k, f ∈ l → g ∈ l →
    repoName f = repoName g → filename f = filename g →
    truthy (author_email (author f)) = Some k →
    truthy (author_email (author g)) = Some k →
    author f = author g.
Proof.
  unfold authorsAgree. rewrite Forall_forall.
  intros H f g k Hf Hg Hr Hn Hkf Hkg.
  specialize (H f Hf). rewrite Forall_forall in H. apply (H g Hg).
  unfold sameAuthorKey. rewrite Hkf, Hkg. done.
Qed.

(** One more file change sets, in the bucket of its repository (made
    empty if new), the entry of its file (made of an empty author map and
    an empty type set if new) to the old entry with the change's type
    added and, when the author's email is a non-empty string, with the
    author stored under that email.  Over a whole input: a repository has
    a bucket, and a file an entry, exactly when a change names them; the
    author kept under an email is the one of the last change of that file
    with that email; no author is kept under the empty email; the type
    set holds exactly the plain_types of the file's changes. *)
Lemma groupFiles_fold (fileList : list CommitFile) :
  (∀ file,
     groupFiles (fileList ++ [file]) =
       let filesByRepository := groupFiles fileList in
       let files := default ∅ (filesByRepository !! repoName file) in
       let entry := default (mkPlainEntry ∅ ∅) (files !! filename file) in
       <[repoName file :=
           <[filename file :=
               mkPlainEntry
                 (match author_email (author file) with
                  | Some email =>
                      if decide (email = "") then plain_authors entry
                      else <[email := author file]> (plain_authors entry)
                  | None => plain_authors entry
                  end)
                 ({[type file]} ∪ plain_types entry)]> files]> filesByRepository)
  ∧ (∀ r, is_Some (groupFiles fileList !! r) ↔
            ∃ file, file ∈ fileList ∧ repoName file = r)
  ∧ (∀ r n, is_Some (lookup2 (groupFiles fileList) r n) ↔
              ∃ file, file ∈ fileList ∧ repoName file = r ∧ filename file = n)
  ∧ (∀ r n entry,
       lookup2 (groupFiles fileList) r n = Some entry →
       (∀ email, plain_authors entry !! email =
                   lastAuthor email (changesOf r n fileList))
       ∧ plain_authors entry !! "" = None
       ∧ (∀ ty, ty ∈ plain_types entry ↔
                  ∃ file, file ∈ changesOf r n fileList ∧ type file = ty)).
Proof.
  split_and!.
  - intros file. rewrite groupFiles_snoc, groupFilesStep_eq.
    cbn zeta. unfold entryStep, lookup2.
    assert (default (mkPlainEntry ∅ ∅)
              (groupFiles fileList !! repoName file
                 ≫= (.!! filename file)) =
            default (mkPlainEntry ∅ ∅)
              (default ∅ (groupFiles fileList !! repoName file)
                 !! filename file)) as ->.
    { destruct (groupFiles fileList !! repoName file); [done|].
      cbn. by rewrite lookup_empty. }
    do 3 f_equal.
    destruct (author_email (author file)) as [[|c s]|]; done.
  - apply groupFiles_repo.
  - intros r n. rewrite groupFiles_entry.
    unfold changesOf.
    destruct (filter _ fileList) as [|c cs] eqn:E.
    + split; [by intros [? ?]|]. intros (f & Hf & Hr & Hn).
      assert (f ∈ filter (λ f, repoName f = r ∧ filename f = n) fileList)
        as Hin by by apply list_elem_of_filter.
      rewrite E in Hin. by apply not_elem_of_nil in Hin.
    + split; [|done]. intros _. exists c.
      assert (c ∈ filter (λ f, repoName f = r ∧ filename f = n) fileList)
        as Hin by (rewrite E; by left).
      apply list_elem_of_filter in Hin. tauto.
  - intros r n entry. rewrite groupFiles_entry.
    destruct (changesOf r n fileList) as [|c cs] eqn:E; [done|].
    intros [= <-]. split_and!.
    + intros email. apply entryOf_authors.
    + rewrite entryOf_authors. unfold lastAuthor.
      destruct (last _) as [f|] eqn:Hlast; [|done].
      apply last_Some_elem_of, list_elem_of_filter in Hlast as [Hf _].
      by apply truthy_nonempty in Hf as [_ ?].
    + apply entryOf_types.
Qed.

(** On inputs in which the changes that write the same
    author key (same repository, same file, same non-empty email) carry
    the same author, the result does not depend on the order of the
    input. *)
Lemma groupFiles_permutation (l1 l2 : list CommitFile) :
  l1 ≡ₚ l2 → authorsAgree l1 →
  groupFiles l1 = groupFiles l2.
Proof.
  intros Hp Hagree.
  assert (∀ r n, lookup2 (groupFiles l1) r n =
                 lookup2 (groupFiles l2) r n) as Hentry.
  { intros r n. rewrite !groupFiles_entry.
    assert (changesOf r n l1 ≡ₚ changesOf r n l2) as Hcs
      by (unfold changesOf; by rewrite Hp).
    assert (entryOf (changesOf r n l1) = entryOf (changesOf r n l2)) as He.
    { apply entryOf_agree; [done|]. intros f g k Hf Hg.
      apply list_elem_of_filter in Hf as [[Hfr Hfn] Hf].
      apply list_elem_of_filter in Hg as [[Hgr Hgn] Hg].
      apply (authorsAgree_elim _ Hagree f g k); congruence. }
    destruct (changesOf r n l1) as [|c1 cs1] eqn:E1.
    - apply Permutation_nil_l in Hcs. by rewrite <- Hcs.
    - destruct (changesOf r n l2) as [|c2 cs2] eqn:E2; [|by rewrite He].
      by apply Permutation_nil_r in Hcs. }
  apply map_eq; intros r.
  destruct (groupFiles l1 !! r) as [i1|] eqn:E1.
  - assert (is_Some (groupFiles l2 !! r)) as [i2 E2].
    { apply groupFiles_repo.
      assert (is_Some (groupFiles l1 !! r)) as Hs by done.
      apply groupFiles_repo in Hs as (f & Hf & Hr).
      exists f. by rewrite <- Hp. }
    rewrite E2. f_equal. apply map_eq; intros n.
    specialize (Hentry r n). unfold lookup2 in Hentry.
    by rewrite E1, E2 in Hentry.
  - destruct (groupFiles l2 !! r) as [i2|] eqn:E2; [|done].
    assert (is_Some (groupFiles l1 !! r)) as [i1 E1'].
    { apply groupFiles_repo.
      assert (is_Some (groupFiles l2 !! r)) as Hs by done.
      apply groupFiles_repo in Hs as (f & Hf & Hr).
      exists f. by rewrite Hp. }
    congruence.
Qed.

End PlainFiles.

(** ** Archiving a release *)

Module ArchiveRelease.
Import ReleaseDetailUtils.

(** The trace of [archiveRelease] against any API: the loading toast, one
    request, and what follows from its answer. *)
Lemma archiveRelease_trace t orgId version api :
  let path := "/organizations/" +:+ orgId +:+ "/releases/" in
  let options := mkRequestOptions "POST" (mkRequestData Archived [] version) in
  run api (archiveRelease t orgId version) =
    [Loading (t "Archiving Release..."); Request path options] ++
    match api path options with
    | inr _ => [Success (t "Release was successfully archived."); Push path]
    | inl error => [Error (errorMessage t error)]
    end.
Proof.
  intros path options. unfold archiveRelease. cbn.
  fold path. fold options. by destruct (api path options).
Qed.

(** C9.  [archiveRelease] posts once.  When the request fails with a body
    whose [detail] is X, the error toast shows X; when it fails without a
    [detail] (or without a body), the toast shows the localised fallback;
    when it succeeds, the success toast is shown and the browser goes to
    the organisation's releases page.  In every case the trace holds
    exactly one request. *)
Theorem archiveRelease_outcomes
    (t : string → string) (orgId version : string)
    (api : string → RequestOptions → RequestError + unit) :
  let path := "/organizations/" +:+ orgId +:+ "/releases/" in
  let options := mkRequestOptions "POST" (mkRequestData Archived [] version) in
  let trace := run api (archiveRelease t orgId version) in
  (∀ X,
     api path options = inl (mkRequestError (Some (mkResponseJSON (Some X)))) →
     trace = [Loading (t "Archiving Release..."); Request path options;
              Error X]
     ∧ visibleErrors trace = [X])
  ∧ (∀ error,
       api path options = inl error →
       responseJSON error ≫= detail = None →
       trace = [Loading (t "Archiving Release..."); Request path options;
                Error (t "Release could not be be archived.")]
       ∧ visibleErrors trace = [t "Release could not be be archived."])
  ∧ (∀ u,
       api path options = inr u →
       trace = [Loading (t "Archiving Release..."); Request path options;
                Success (t "Release was successfully archived.");
                Push path]
       ∧ visibleErrors trace = [])
  ∧ filter isRequest trace = [Request path options].
Proof.
  intros path options trace. subst trace.
  rewrite archiveRelease_trace. fold path. fold options.
  split_and!.
  - intros X ->. done.
  - intros [[[[d|]]|]] -> Hd; done.
  - intros u ->. done.
  - by destruct (api path options).
Qed.

End ArchiveRelease.

(** ** The release list loader *)

Module ReleasesListLoader.
Import ReleasesList.

Lemma getEndpoints_date props :
  getSort props = "date" →
  ∃ query,
    getEndpoints props =
      [mkEndpoint "releasesWithHealth"
         ("/organizations/" +:+ organization_slug (organization props)
            +:+ "/releases/") query;
       mkEndpoint "releasesWithoutHealth"
         ("/organizations/" +:+ organization_slug (organization props)
            +:+ "/releases/") (<["health" := JsNumber 0]> query)]
    ∧ query !! "health" = Some (JsNumber 1)
    ∧ query !! "flatten" = Some (JsNumber 0).
Proof.
  intros Hsort. unfold getEndpoints. rewrite Hsort.
  rewrite !bool_decide_eq_true_2 by done.
  eexists. split; [reflexivity|]. split.
  - rewrite lookup_insert_ne by done. by rewrite lookup_insert_eq.
  - by rewrite lookup_insert_eq.
Qed.

Lemma getEndpoints_other props :
  getSort props ≠ "date" →
  ∃ query,
    getEndpoints props =
      [mkEndpoint "releasesWithHealth"
         ("/organizations/" +:+ organization_slug (organization props)
            +:+ "/releases/") query]
    ∧ query !! "health" = Some (JsNumber 1)
    ∧ query !! "flatten" = Some (JsNumber 1).
Proof.
  intros Hsort. unfold getEndpoints.
  rewrite !bool_decide_eq_false_2 by done.
  eexists. split; [reflexivity|]. split.
  - rewrite lookup_insert_ne by done. by rewrite lookup_insert_eq.
  - by rewrite lookup_insert_eq.
Qed.

(** C2.  With the sort key "date" two requests are out.  Once both
    responses have arrived the state holds the health-bearing payload with
    [loadingHealth] cleared, in either order of arrival: a health-bearing
    response that arrives first commits that state and the list-only
    response after it commits nothing; a list-only response that arrives
    first is committed with [loadingHealth] set and the health-bearing
    response after it commits the final state. *)
Theorem date_sort_final_state
    (props : Props) (state : State)
    (dataH dataL : list Release) (xhrH xhrL : option JqXHR) :
  getSort props = "date" →
  let health := mkResponse "releasesWithHealth" dataH xhrH in
  let listOnly := mkResponse "releasesWithoutHealth" dataL xhrL in
  let final n :=
    {| releases := Some dataH; loadingHealth := false; reloading := false;
       loading := false; remainingRequests := n;
       releasesPageLinks := linkHeader xhrH |} in
  let provisional :=
    {| releases := Some dataL; loadingHealth := true; reloading := false;
       loading := false; remainingRequests := 1;
       releasesPageLinks := linkHeader xhrL |} in
  length (getEndpoints props) = 2
  ∧ arrive props state [health; listOnly] = final 0%Z
  ∧ arrive props state [listOnly; health] = final 0%Z
  ∧ arrive props state [health] = final 1%Z
  ∧ onRequestSuccess_update
      (requestArrived (arrive props state [health])) listOnly = None
  ∧ arrive props state [listOnly] = provisional
  ∧ is_Some (onRequestSuccess_update
               (requestArrived (arrive props state [listOnly])) health).
Proof.
  intros Hsort health listOnly final provisional.
  destruct (getEndpoints_date props Hsort) as (query & Hendpoints & _).
  unfold arrive, fetchData. rewrite Hendpoints. cbn.
  split_and!; done.
Qed.

Lemma date_sort_final_state_example :
  let props := mkProps (mkOrganization "org") ∅ in
  let state := mkState None false false false 0 Undefined in
  let r1 := mkRelease "1.0" "2020-11-06T08:37:14Z" 0
              [mkReleaseProject "web" true] in
  let r2 := mkRelease "1.0" "2020-11-06T08:37:14Z" 0
              [mkReleaseProject "web" false] in
  let health := mkResponse "releasesWithHealth" [r1] None in
  let listOnly := mkResponse "releasesWithoutHealth" [r2] None in
  getSort props = "date"
  ∧ arrive props state [health; listOnly]
    = arrive props state [listOnly; health]
  ∧ releases (arrive props state [health; listOnly]) = Some [r1]
  ∧ loadingHealth (arrive props state [listOnly]) = true.
Proof.
  intros props state r1 r2 health listOnly.
  assert (getSort props = "date") as Hsort by reflexivity.
  split; [exact Hsort|].
  destruct (date_sort_final_state props state [r1] [r2] None None Hsort)
    as (_ & H1 & H2 & _ & _ & H3 & _).
  fold health in H1, H2. fold listOnly in H1, H2, H3.
  rewrite H1, H2, H3. done.
Defined.

(** C3.  For a sort key other than "date" [getEndpoints] names one
    request, the combined one with [health=1] and [flatten=1], and a
    response to it is committed whatever the state; for "date" it names
    two, the second being the list-only one with [health=0]. *)
Theorem getEndpoints_by_sort (props : Props) :
  let path :=
    "/organizations/" +:+ organization_slug (organization props)
      +:+ "/releases/" in
  (getSort props ≠ "date" →
     ∃ query,
       getEndpoints props = [mkEndpoint "releasesWithHealth" path query]
       ∧ query !! "health" = Some (JsNumber 1)
       ∧ query !! "flatten" = Some (JsNumber 1)
       ∧ ∀ endpoint state response,
           endpoint ∈ getEndpoints props →
           stateKey response = endpoint_stateKey endpoint →
           is_Some (onRequestSuccess_update state response)
           ∧ releases (onRequestSuccess state response)
             = Some (data response))
  ∧ (getSort props = "date" →
     ∃ query,
       getEndpoints props =
         [mkEndpoint "releasesWithHealth" path query;
          mkEndpoint "releasesWithoutHealth" path
            (<["health" := JsNumber 0]> query)]
       ∧ query !! "health" = Some (JsNumber 1)
       ∧ (<["health" := JsNumber 0]> query) !! "health" = Some (JsNumber 0)).
Proof.
  intros path. split.
  - intros Hsort.
    destruct (getEndpoints_other props Hsort) as (query & Hq & Hh & Hf).
    exists query. split_and!; [done..|].
    intros endpoint state response Hin Hkey.
    rewrite Hq in Hin. apply list_elem_of_singleton in Hin. subst endpoint.
    cbn in Hkey.
    unfold onRequestSuccess, onRequestSuccess_update. rewrite Hkey. cbn.
    done.
  - intros Hsort.
    destruct (getEndpoints_date props Hsort) as (query & Hq & Hh & Hf).
    exists query. split_and!; [done..|]. by rewrite lookup_insert_eq.
Qed.

End ReleasesListLoader.

(** ** The commit rule at a response's arrival *)

Module ReleasesListArrival.
Import ReleasesList.

(** C1, as stated, fails where the arriving request has left the counter
    before [onRequestSuccess] reads it: a list-only response that is the
    last outstanding request (the counter was 1, the hook reads 0) is not
    committed. *)
Lemma onRequestSuccess_last_request_dropped :
  ¬ (∀ (state : State) (response : Response),
       is_Some (onRequestSuccess_update (requestArrived state) response) ↔
       stateKey response = "releasesWithHealth"
       ∨ remainingRequests state = 1%Z).
Proof.
  intros H.
  pose (state := mkState None false false true 1 Undefined).
  pose (listOnly := mkResponse "releasesWithoutHealth" [] None).
  destruct (proj2 (H state listOnly)) as [update Hupdate].
  - right. reflexivity.
  - vm_compute in Hupdate. discriminate Hupdate.
Qed.

(** C1, amended.  [onRequestSuccess] commits a response exactly when it is
    the health-bearing one or the counter [remainingRequests] it reads is
    1.  At an arrival, where the arriving request has left the counter
    before the hook runs, that is: exactly when the response is the
    health-bearing one or one other request is still outstanding.  A
    response that is not committed leaves the state as the arrival found
    it, the counter apart; a committed one becomes [releases], clears
    [loading] and [reloading], and sets [loadingHealth] when it is the
    list-only response and clears it when it is the health-bearing one. *)
Theorem handleRequestSuccess_commit (state : State) (response : Response) :
  (∀ read : State,
     is_Some (onRequestSuccess_update read response) ↔
     stateKey response = "releasesWithHealth"
     ∨ remainingRequests read = 1%Z)
  ∧ (is_Some (onRequestSuccess_update (requestArrived state) response) ↔
     stateKey response = "releasesWithHealth"
     ∨ remainingRequests state = 2%Z)
  ∧ (onRequestSuccess_update (requestArrived state) response = None →
     handleRequestSuccess state response = requestArrived state)
  ∧ (∀ update,
       onRequestSuccess_update (requestArrived state) response
       = Some update →
       let state' := handleRequestSuccess state response in
       releases state' = Some (data response)
       ∧ releasesPageLinks state' = linkHeader (jqXHR response)
       ∧ loading state' = false
       ∧ reloading state' = false
       ∧ remainingRequests state' = (remainingRequests state - 1)%Z
       ∧ (stateKey response = "releasesWithoutHealth" →
          loadingHealth state' = true)
       ∧ (stateKey response = "releasesWithHealth" →
          loadingHealth state' = false)).
Proof.
  assert (∀ read : State,
            is_Some (onRequestSuccess_update read response) ↔
            stateKey response = "releasesWithHealth"
            ∨ remainingRequests read = 1%Z) as Hguard.
  { intros read. unfold onRequestSuccess_update.
    destruct (bool_decide (stateKey response = "releasesWithHealth")
              || bool_decide (remainingRequests read = 1%Z)) eqn:E.
    - apply orb_true_iff in E. rewrite !bool_decide_eq_true in E.
      split; [done|by eexists].
    - apply orb_false_iff in E. rewrite !bool_decide_eq_false in E.
      split; [by intros [? ?]|tauto]. }
  split_and!.
  - exact Hguard.
  - rewrite Hguard. cbn. split; (intros [H|H]; [by left|right; lia]).
  - intros Hnone. unfold handleRequestSuccess, onRequestSuccess.
    by rewrite Hnone.
  - intros update Hsome. unfold handleRequestSuccess, onRequestSuccess.
    rewrite Hsome. unfold onRequestSuccess_update in Hsome.
    destruct (bool_decide (stateKey response = "releasesWithHealth")
              || bool_decide (remainingRequests (requestArrived state) = 1%Z));
      [|done].
    injection Hsome as <-. cbn. split_and!; try done.
    + by intros ->.
    + by intros ->.
Qed.

End ReleasesListArrival.

(** ** Rendering the list body *)

Module ReleasesListBody.
Import ReleasesList.

Section Properties.

Context (t : string → string).
Context (getRelativeSummary : JsValue → string).
Context (toLowerCase : string → string).
Context (DEFAULT_STATS_PERIOD : string).

(** With a non-empty search query [renderEmptyMessage] is the "no releases
    match" warning. *)
Lemma renderEmptyMessage_search props query :
  getQuery props = Some query → query ≠ "" →
  renderEmptyMessage t getRelativeSummary toLowerCase DEFAULT_STATS_PERIOD
    props
  = EmptyStateWarning true
      (t "There are no releases that match" +:+ ": '" +:+ query +:+ "'.").
Proof.
  intros Hq Hne. unfold renderEmptyMessage. rewrite Hq.
  by destruct query.
Qed.

(** The body never depends on [state.releases] once the loading indicator
    is off: the cards of the list bound inside [renderInnerBody] are
    rendered. *)
Lemma renderInnerBody_cards props state :
  shouldShowLoadingIndicator state = false →
  ∃ cards,
    renderInnerBody t getRelativeSummary toLowerCase DEFAULT_STATS_PERIOD
      props state = Some (ReleaseCards cards)
    ∧ card_release <$> cards = renderInnerBody_releases.
Proof.
  intros Hload. unfold renderInnerBody. rewrite Hload.
  eexists. split; reflexivity.
Qed.

End Properties.

(** C4, on the code.  With an empty committed list and the search query
    "foo", [renderEmptyMessage] is the "no releases match" warning, but
    the rendered body is not that warning: it is the 25 cards of the list
    bound inside [renderInnerBody]. *)
Theorem renderInnerBody_empty_search
    (t : string → string) (getRelativeSummary : JsValue → string)
    (toLowerCase : string → string) (DEFAULT_STATS_PERIOD : string) :
  let props := mkProps (mkOrganization "org") {[ "query" := JsString "foo" ]} in
  let state := mkState (Some []) false false false 0 Null in
  renderEmptyMessage t getRelativeSummary toLowerCase DEFAULT_STATS_PERIOD
    props
  = EmptyStateWarning true (t "There are no releases that match" +:+ ": 'foo'.")
  ∧ ∃ cards,
      renderInnerBody t getRelativeSummary toLowerCase DEFAULT_STATS_PERIOD
        props state = Some (ReleaseCards cards)
      ∧ length cards = 25
      ∧ card_release <$> cards = renderInnerBody_releases.
Proof.
  intros props state. split.
  - by rewrite (renderEmptyMessage_search _ _ _ _ props "foo").
  - destruct (renderInnerBody_cards t getRelativeSummary toLowerCase
                DEFAULT_STATS_PERIOD props state eq_refl)
      as (cards & Hbody & Hcards).
    exists cards. split_and!; [done| |done].
    rewrite <- (length_fmap card_release), Hcards. reflexivity.
Qed.

End ReleasesListBody.

(** ** More on grouping commits over finite maps *)

Module PlainCommitsMore.
Import ReleaseDetailUtils PlainGrouping PlainCommits.

Section Properties.

Context (t : string → string).

Lemma groupCommitsStep_insert (m : gmap string (list Commit)) c :
  groupCommitsStep t m c =
    <[repositoryName t c := default [] (m !! repositoryName t c) ++ [c]]> m.
Proof.
  apply map_eq; intros k. rewrite groupCommitsStep_lookup.
  case_decide as Hk.
  - subst k. by rewrite lookup_insert_eq.
  - by rewrite lookup_insert_ne.
Qed.

Lemma bucketTotal_insert (m : gmap string (list Commit)) k b :
  bucketTotal (<[k := b]> m) + length (default [] (m !! k))
  = length b + bucketTotal m.
Proof.
  unfold bucketTotal.
  rewrite (map_fold_delete_L _ _ k b (<[k:=b]> m)).
  2: { intros. lia. }
  2: { apply lookup_insert_eq. }
  rewrite delete_insert_eq.
  destruct (m !! k) as [b0|] eqn:Hk; cbn [default length].
  - rewrite (map_fold_delete_L _ _ k b0 m).
    2: { intros. lia. }
    2: { done. }
    unfold id. lia.
  - rewrite delete_id by done. lia.
Qed.

End Properties.

(** Grouping a concatenation is grouping both parts and appending,
    key by key, the buckets of the second part to those of the first. *)
Lemma groupCommits_app
    (t : string → string) (l1 l2 : list Commit) :
  groupCommits t (l1 ++ l2)
  = appendBuckets (groupCommits t l1) (groupCommits t l2).
Proof.
  apply map_eq; intros k. unfold appendBuckets.
  rewrite lookup_union_with, !groupCommits_lookup, filter_app.
  destruct (filter _ l1) as [|c1 cs1]; destruct (filter _ l2) as [|c2 cs2];
    cbn; rewrite ?app_nil_r; done.
Qed.

(** The bucket sizes add up to the length of the input: no commit is
    lost or counted twice. *)
Lemma groupCommits_total_size
    (t : string → string) (commitList : list Commit) :
  bucketTotal (groupCommits t commitList) = length commitList.
Proof.
  induction commitList as [|c l IH] using rev_ind; [done|].
  rewrite groupCommits_snoc, groupCommitsStep_insert.
  pose proof (bucketTotal_insert (groupCommits t l)
                (repositoryName t c)
                (default [] (groupCommits t l !! repositoryName t c)
                   ++ [c])) as H.
  rewrite !length_app in *. cbn [length] in *. lia.
Qed.

(** Two inputs are grouped alike exactly when they agree on the
    subsequence of every repository. *)
Lemma groupCommits_eq_iff
    (t : string → string) (l1 l2 : list Commit) :
  groupCommits t l1 = groupCommits t l2 ↔
  ∀ name, filter (λ c, repositoryName t c = name) l1
          = filter (λ c, repositoryName t c = name) l2.
Proof.
  split.
  - intros H name. apply (f_equal (.!! name)) in H.
    rewrite !groupCommits_lookup in H.
    destruct (filter _ l1), (filter _ l2); congruence.
  - intros H. apply map_eq; intros k.
    by rewrite !groupCommits_lookup, H.
Qed.

(** Exchanging two neighbouring commits of the input leaves the
    grouping as it was exactly when they belong to different repositories
    (or are the same commit): the order across repositories is not kept,
    the order within one is. *)
Lemma groupCommits_swap
    (t : string → string) (l1 l2 : list Commit) (a b : Commit) :
  groupCommits t (l1 ++ a :: b :: l2)
  = groupCommits t (l1 ++ b :: a :: l2)
  ↔ repositoryName t a ≠ repositoryName t b ∨ a = b.
Proof.
  rewrite groupCommits_eq_iff. split.
  - intros H.
    destruct (decide (repositoryName t a = repositoryName t b)) as [E|E];
      [right|by left].
    specialize (H (repositoryName t a)).
    rewrite !filter_app, !filter_cons in H.
    rewrite !decide_True in H by done.
    apply app_inv_head in H. by injection H.
  - intros H name. rewrite !filter_app, !filter_cons.
    destruct H as [H| ->]; [|done].
    repeat case_decide; try done. congruence.
Qed.

End PlainCommitsMore.

(** ** More on grouping file changes over finite maps *)

Module PlainFilesMore.
Import ReleaseDetailUtils PlainGrouping PlainFiles.

Lemma changesOf_elem r n l f :
  f ∈ changesOf r n l ↔ f ∈ l ∧ repoName f = r ∧ filename f = n.
Proof. unfold changesOf. rewrite list_elem_of_filter. tauto. Qed.

Lemma changesOf_own l f : f ∈ l → f ∈ changesOf (repoName f) (filename f) l.
Proof. intros. by apply changesOf_elem. Qed.

(** A grouping is known by its entries and by the repositories it has. *)
Lemma grouping_eq (m1 m2 : gmap string (gmap string PlainEntry)) :
  (∀ r, is_Some (m1 !! r) ↔ is_Some (m2 !! r)) →
  (∀ r n, lookup2 m1 r n = lookup2 m2 r n) →
  m1 = m2.
Proof.
  intros Hdom Hentry. apply map_eq; intros r.
  destruct (m1 !! r) as [i1|] eqn:E1.
  - destruct (proj1 (Hdom r)) as [i2 E2]; [by rewrite E1|].
    rewrite E2. f_equal. apply map_eq; intros n.
    specialize (Hentry r n). unfold lookup2 in Hentry.
    by rewrite E1, E2 in Hentry.
  - destruct (m2 !! r) as [i2|] eqn:E2; [|done].
    destruct (proj2 (Hdom r)) as [i1 E1']; [by rewrite E2|]. congruence.
Qed.

Lemma groupFiles_repo_ext l1 l2 :
  (∀ f, f ∈ l1 ↔ f ∈ l2) →
  ∀ r, is_Some (groupFiles l1 !! r)
       ↔ is_Some (groupFiles l2 !! r).
Proof.
  intros H r. rewrite !groupFiles_repo.
  split; intros (f & Hf & <-); exists f; (split; [by apply H|done]).
Qed.

Lemma entryOf_app cs1 cs2 :
  entryOf (cs1 ++ cs2) = mergeEntries (entryOf cs1) (entryOf cs2).
Proof.
  unfold mergeEntries.
  assert (plain_authors (entryOf (cs1 ++ cs2))
          = plain_authors (entryOf cs2) ∪ plain_authors (entryOf cs1)) as Ha.
  { apply map_eq; intros k.
    rewrite lookup_union, !entryOf_authors. unfold lastAuthor.
    rewrite filter_app, last_app.
    destruct (last (filter _ cs2)); destruct (last (filter _ cs1)); done. }
  assert (plain_types (entryOf (cs1 ++ cs2))
          = plain_types (entryOf cs1) ∪ plain_types (entryOf cs2)) as Ht.
  { apply set_eq; intros ty.
    rewrite elem_of_union, !entryOf_types. split.
    - intros (f & Hf & <-). apply elem_of_app in Hf as [Hf|Hf]; eauto.
    - intros [(f & Hf & <-)|(f & Hf & <-)]; exists f;
        (split; [apply elem_of_app; auto|done]). }
  destruct (entryOf (cs1 ++ cs2)); cbn in *; congruence.
Qed.


(** Grouping is idempotent: an input followed by itself, or a change
    repeated at the end, is grouped like the input without the
    repetition. *)
Lemma groupFiles_idempotent (fileList : list CommitFile) :
  groupFiles (fileList ++ fileList) = groupFiles fileList
  ∧ ∀ file,
      groupFiles (fileList ++ [file; file])
      = groupFiles (fileList ++ [file]).
Proof.
  assert (∀ cs, entryOf (cs ++ cs) = entryOf cs) as Hidem.
  { intros cs. rewrite entryOf_app. unfold mergeEntries.
    rewrite (map_union_idemp (plain_authors _)), (union_idemp_L (plain_types _)).
    by destruct (entryOf cs). }
  split.
  - apply grouping_eq.
    + apply groupFiles_repo_ext. intros f.
      rewrite elem_of_app. tauto.
    + intros r n. rewrite !groupFiles_entry.
      unfold changesOf. rewrite filter_app. fold (changesOf r n fileList).
      destruct (changesOf r n fileList) as [|c cs] eqn:E; [done|].
      cbn [app]. rewrite (app_comm_cons cs (c :: cs) c), Hidem. done.
  - intros file. apply grouping_eq.
    + apply groupFiles_repo_ext. intros f.
      rewrite !elem_of_app, !elem_of_cons. tauto.
    + intros r n. rewrite !groupFiles_entry.
      unfold changesOf. rewrite !filter_app, !filter_cons, filter_nil.
      case_decide; [|done].
      assert (∀ X, entryOf (X ++ [file; file]) = entryOf (X ++ [file])) as Hx.
      { intros X. change [file; file] with ([file] ++ [file]).
        by rewrite (entryOf_app X ([file] ++ [file])), Hidem, <- entryOf_app. }
      destruct (filter _ fileList) as [|c cs].
      * cbn [app]. f_equal. apply (Hx []).
      * cbn [app]. f_equal. apply (Hx (c :: cs)).
Qed.

(** The grouping is decided by the changes of each file taken in
    their order: two inputs that agree on the change sequence of every
    file of every repository are grouped alike, however the changes of
    different files are interleaved. *)
Lemma groupFiles_per_file (l1 l2 : list CommitFile) :
  (∀ r n, changesOf r n l1 = changesOf r n l2) →
  groupFiles l1 = groupFiles l2.
Proof.
  intros H. apply grouping_eq.
  - apply groupFiles_repo_ext. intros f. split; intros Hf.
    + apply changesOf_own in Hf. rewrite H in Hf.
      by apply changesOf_elem in Hf as [? _].
    + apply changesOf_own in Hf. rewrite <- H in Hf.
      by apply changesOf_elem in Hf as [? _].
  - intros r n. by rewrite !groupFiles_entry, H.
Qed.

(** Grouping a concatenation merges, file by file, the entries of
    the two parts: the type sets are united, and an email has the author
    of the second part when it has one there, else that of the first. *)
Lemma groupFiles_app (l1 l2 : list CommitFile) (r n : string) :
  lookup2 (groupFiles (l1 ++ l2)) r n
  = union_with (λ e1 e2, Some (mergeEntries e1 e2))
      (lookup2 (groupFiles l1) r n)
      (lookup2 (groupFiles l2) r n).
Proof.
  rewrite !groupFiles_entry. unfold changesOf.
  rewrite filter_app.
  destruct (filter _ l1) as [|c1 cs1] eqn:E1;
    destruct (filter _ l2) as [|c2 cs2] eqn:E2; cbn [app union_with]; try done.
  - by rewrite app_nil_r.
  - cbn [option_union_with]. f_equal.
    apply (entryOf_app (c1 :: cs1) (c2 :: cs2)).
Qed.

End PlainFilesMore.

(** ** The object model

    The fold, and the operations on an object that has no property
    [hasOwnProperty] and the prototype it was created with. *)

Module ObjectModel.
Import ReleaseDetailUtils PlainGrouping.

Lemma reduce_snoc {A B} (f : B → A → Thrown + B) init l x :
  reduce f init (l ++ [x]) = tryBind (reduce f init l) (λ b, f b x).
Proof. unfold reduce. by rewrite foldl_snoc. Qed.

(** On an object without a property [hasOwnProperty] and with the
    prototype it was created with, and for a name other than [__proto__],
    the operations are those of the finite map of own properties. *)
Lemma hasOwnProperty_objectOf {V} (shadowed : V → bool) (m : gmap string V) k :
  m !! "hasOwnProperty" = None →
  hasOwnProperty shadowed (objectOf m) k = inr (bool_decide (is_Some (m !! k))).
Proof.
  intros H. unfold hasOwnProperty, objectOf. cbn. rewrite H.
  by rewrite (bool_decide_eq_false_2 (is_Some None)) by (by intros [? ?]).
Qed.

Lemma assign_objectOf {V} (m : gmap string V) k v :
  k ≠ "__proto__" → assign (objectOf m) k v = objectOf (<[k := v]> m).
Proof. intros H. unfold assign. by rewrite bool_decide_eq_false_2. Qed.

Lemma read_objectOf {V} (m : gmap string V) k v :
  k ≠ "__proto__" → m !! k = Some v → read (objectOf m) k = inr v.
Proof.
  intros H Hv. unfold read. rewrite bool_decide_eq_false_2 by done.
  cbn. by rewrite Hv.
Qed.

Lemma mutate_objectOf {V} (m : gmap string V) k f :
  k ≠ "__proto__" → mutate (objectOf m) k f = objectOf (alter f k m).
Proof. intros H. unfold mutate. by rewrite bool_decide_eq_false_2. Qed.

End ObjectModel.

(** ** Grouping commits: the accumulator as an object *)

Module CommitsByRepository.
Import ReleaseDetailUtils PlainGrouping ObjectModel PlainCommits PlainCommitsMore.

Lemma elem_of_removelast {A} (l : list A) x : x ∈ removelast l → x ∈ l.
Proof.
  destruct l as [|y l] using rev_ind; [done|].
  rewrite removelast_last, elem_of_app. auto.
Qed.

Section Properties.

Context (t : string → string).

Lemma getCommitsByRepository_snoc l c :
  getCommitsByRepository t (l ++ [c]) =
    tryBind (getCommitsByRepository t l) (λ o, commitsReducer t o c).
Proof. apply reduce_snoc. Qed.

Lemma commitsReducer_throws (o : Obj (list Commit)) c :
  is_Some (own o !! "hasOwnProperty") → commitsReducer t o c = inl TypeError.
Proof.
  intros H. unfold commitsReducer, hasOwnProperty.
  by rewrite bool_decide_eq_true_2.
Qed.

Lemma protoBucket_snoc l c :
  protoBucket t (l ++ [c]) =
    if decide (repositoryName t c = "__proto__") then Some [c]
    else protoBucket t l.
Proof.
  unfold protoBucket. rewrite filter_app, filter_cons, filter_nil.
  case_decide; [by rewrite last_snoc|by rewrite app_nil_r].
Qed.

Lemma commitsReducer_ok l c :
  own (commitsObject t l) !! "hasOwnProperty" = None →
  commitsReducer t (commitsObject t l) c = inr (commitsObject t (l ++ [c])).
Proof.
  intros Hm. unfold commitsReducer, hasOwnProperty.
  rewrite Hm. rewrite bool_decide_eq_false_2 by (by intros [? ?]).
  assert (from_option (λ _ : list Commit, false) false
            (proto (commitsObject t l)) = false) as ->
    by (by destruct (proto _)).
  cbn [tryBind].
  assert (commitsObject t (l ++ [c])
          = mkObj (delete "__proto__"
                     (groupCommitsStep t (groupCommits t l) c))
                  (if decide (repositoryName t c = "__proto__")
                   then Some [c] else protoBucket t l)) as ->
    by (unfold commitsObject; by rewrite groupCommits_snoc, protoBucket_snoc).
  destruct (decide (repositoryName t c = "__proto__")) as [E|E].
  - rewrite E.
    assert (own (commitsObject t l) !! "__proto__" = None) as ->
      by apply lookup_delete_eq.
    rewrite (bool_decide_eq_false_2 (is_Some None)) by (by intros [? ?]).
    unfold assign, read, mutate.
    rewrite !(bool_decide_eq_true_2 ("__proto__" = "__proto__")) by done.
    cbn. do 2 f_equal.
    rewrite groupCommitsStep_insert, E. by rewrite delete_insert_eq.
  - unfold assign, read, mutate.
    rewrite groupCommitsStep_insert.
    set (k := repositoryName t c) in *.
    set (m := groupCommits t l) in *.
    assert (own (commitsObject t l) !! k = m !! k) as Hk
      by (cbn; by rewrite lookup_delete_ne).
    rewrite Hk.
    rewrite !(bool_decide_eq_false_2 (k = "__proto__")) by done.
    destruct (m !! k) as [b|] eqn:Hb.
    + rewrite (bool_decide_eq_true_2 (is_Some (Some b))) by done.
      rewrite Hk. cbn.
      do 2 f_equal. apply map_eq; intros j.
      destruct (decide (k = j)) as [<-|Hj].
      * rewrite lookup_alter_eq. rewrite !lookup_delete_ne by done.
        subst m. by rewrite lookup_insert_eq, Hb.
      * rewrite lookup_alter_ne by done.
        destruct (decide (j = "__proto__")) as [->|Hp].
        -- by rewrite !lookup_delete_eq.
        -- rewrite !lookup_delete_ne by done. by rewrite lookup_insert_ne.
    + rewrite (bool_decide_eq_false_2 (is_Some None)) by (by intros [? ?]).
      cbn. rewrite lookup_insert_eq. cbn.
      do 2 f_equal. apply map_eq; intros j.
      destruct (decide (k = j)) as [<-|Hj].
      * rewrite lookup_alter_eq, lookup_insert_eq. cbn.
        rewrite lookup_delete_ne by done. subst m.
        by rewrite lookup_insert_eq.
      * rewrite lookup_alter_ne, lookup_insert_ne by done.
        destruct (decide (j = "__proto__")) as [->|Hp].
        -- by rewrite !lookup_delete_eq.
        -- rewrite !lookup_delete_ne by done. by rewrite lookup_insert_ne.
Qed.

Lemma commitsObject_method l :
  is_Some (own (commitsObject t l) !! "hasOwnProperty") ↔
  "hasOwnProperty" ∈ (repositoryName t <$> l).
Proof.
  cbn. rewrite lookup_delete_ne by done.
  rewrite groupCommits_lookup, list_elem_of_fmap.
  destruct (filter _ l) as [|c cs] eqn:E; split.
  - by intros [? ?].
  - intros (c & Hc & Hin).
    assert (c ∈ filter (λ c', repositoryName t c' = "hasOwnProperty") l)
      as Hf by by apply list_elem_of_filter.
    rewrite E in Hf. by apply not_elem_of_nil in Hf.
  - intros _. exists c.
    assert (c ∈ filter (λ c', repositoryName t c' = "hasOwnProperty") l)
      as Hf by (rewrite E; by left).
    apply list_elem_of_filter in Hf as [? ?]. done.
  - done.
Qed.

Lemma methodShadowed_snoc l c :
  methodShadowed t (l ++ [c]) ↔ "hasOwnProperty" ∈ (repositoryName t <$> l).
Proof. unfold methodShadowed. by rewrite removelast_last. Qed.

Lemma methodShadowed_elem l :
  methodShadowed t l → "hasOwnProperty" ∈ (repositoryName t <$> l).
Proof.
  unfold methodShadowed. intros Hin.
  apply list_elem_of_fmap in Hin as (x & -> & Hx).
  apply list_elem_of_fmap. exists x. split; [done|].
  by apply elem_of_removelast.
Qed.

(** What [getCommitsByRepository] does on any input. *)
Lemma getCommitsByRepository_cases l :
  (methodShadowed t l → getCommitsByRepository t l = inl TypeError)
  ∧ (¬ methodShadowed t l →
     getCommitsByRepository t l = inr (commitsObject t l)).
Proof.
  induction l as [|c l [IHthrow IHok]] using rev_ind.
  - split.
    + unfold methodShadowed. cbn. intros H. by apply not_elem_of_nil in H.
    + intros _.
      unfold getCommitsByRepository, reduce, commitsObject, protoBucket. cbn.
      by rewrite delete_empty.
  - rewrite getCommitsByRepository_snoc, methodShadowed_snoc.
    destruct (decide (methodShadowed t l)) as [Hs|Hs].
    + rewrite (IHthrow Hs). cbn. split; [done|].
      intros Hn. destruct Hn. by apply methodShadowed_elem.
    + rewrite (IHok Hs). cbn [tryBind]. split.
      * intros Hl. apply commitsReducer_throws. by apply commitsObject_method.
      * intros Hl. apply commitsReducer_ok. apply eq_None_not_Some.
        by rewrite commitsObject_method.
Qed.

Lemma getCommitsByRepository_returns l obj :
  getCommitsByRepository t l = inr obj →
  ¬ methodShadowed t l ∧ obj = commitsObject t l.
Proof.
  destruct (getCommitsByRepository_cases l) as [Hthrow Hok].
  destruct (decide (methodShadowed t l)) as [Hs|Hs].
  - rewrite (Hthrow Hs). done.
  - rewrite (Hok Hs). by intros [= <-].
Qed.

Lemma commitsObject_lookup l k :
  own (commitsObject t l) !! k =
    if decide (k = "__proto__") then None
    else match filter (λ c, repositoryName t c = k) l with
         | [] => None
         | b => Some b
         end.
Proof.
  cbn. case_decide as Hk.
  - subst. apply lookup_delete_eq.
  - rewrite lookup_delete_ne by done. apply groupCommits_lookup.
Qed.

Lemma getCommitsByRepository_plain l :
  plainCommits t l →
  getCommitsByRepository t l = inr (objectOf (groupCommits t l)).
Proof.
  intros Hp. unfold plainCommits in Hp. rewrite Forall_forall in Hp.
  rewrite (proj2 (getCommitsByRepository_cases l)).
  2: { intros Hin. apply methodShadowed_elem in Hin.
       apply list_elem_of_fmap in Hin as (c & Hc & Hin).
       apply Hp in Hin as [_ Hn]. congruence. }
  f_equal. unfold commitsObject, objectOf, protoBucket. f_equal.
  - apply delete_id. rewrite groupCommits_lookup.
    destruct (filter _ l) as [|c cs] eqn:E; [done|].
    assert (c ∈ filter (λ c', repositoryName t c' = "__proto__") l) as Hf
      by (rewrite E; by left).
    apply list_elem_of_filter in Hf as [Hk Hin].
    apply Hp in Hin as [Hn _]. congruence.
  - destruct (filter _ l) as [|c cs] eqn:E; [done|].
    assert (c ∈ filter (λ c', repositoryName t c' = "__proto__") l) as Hf
      by (rewrite E; by left).
    apply list_elem_of_filter in Hf as [Hk Hin].
    apply Hp in Hin as [Hn _]. congruence.
Qed.

Lemma bucketTotal_delete (m : gmap string (list Commit)) k :
  bucketTotal (delete k m) + length (default [] (m !! k)) = bucketTotal m.
Proof.
  unfold bucketTotal. destruct (m !! k) as [b|] eqn:Hk; cbn [default].
  - rewrite (map_fold_delete_L _ _ k b m).
    2: { intros. lia. }
    2: { done. }
    unfold id. lia.
  - rewrite delete_id by done. cbn. lia.
Qed.

Lemma length_filter_split {A} (P : A → Prop) `{!∀ x, Decision (P x)} l :
  length (filter P l) + length (filter (λ x, ¬ P x) l) = length l.
Proof.
  induction l as [|x l IH]; [done|].
  rewrite !filter_cons. destruct (decide (P x)).
  - rewrite decide_False by tauto. cbn. lia.
  - rewrite decide_True by done. cbn. lia.
Qed.

Lemma methodShadowed_app l1 l2 :
  methodShadowed t l1 ∨ methodShadowed t l2 → methodShadowed t (l1 ++ l2).
Proof.
  unfold methodShadowed.
  destruct l2 as [|c l2] using rev_ind.
  - rewrite app_nil_r. cbn. intros [H|H]; [done|].
    by apply not_elem_of_nil in H.
  - rewrite app_assoc, !removelast_last, fmap_app, elem_of_app.
    intros [H|H]; [left|by right].
    apply list_elem_of_fmap in H as (x & -> & Hx).
    apply list_elem_of_fmap. exists x. split; [done|].
    by apply elem_of_removelast.
Qed.

End Properties.

(** C5.  When [getCommitsByRepository] returns, each bucket among the own
    properties of its result is the input list restricted to the commits
    with the bucket's repository name, in the order of the input. *)
Theorem getCommitsByRepository_preserves_order
    (t : string → string) (commitList : list Commit)
    (commitsByRepository : Obj (list Commit))
    (name : string) (bucket : list Commit) :
  getCommitsByRepository t commitList = inr commitsByRepository →
  own commitsByRepository !! name = Some bucket →
  bucket = filter (λ c, repositoryName t c = name) commitList
  ∧ sublist bucket commitList.
Proof.
  intros [_ ->]%getCommitsByRepository_returns.
  rewrite commitsObject_lookup. case_decide; [done|].
  destruct (filter _ commitList) as [|c cs] eqn:E; [done|].
  intros [= <-]. split; [done|]. rewrite <- E. apply sublist_filter.
Qed.

(** The example of the specification: [c1] and [c3] of repository A around
    [c2] of repository B. *)
Lemma getCommitsByRepository_preserves_order_example :
  let c1 := mkCommit "c1" "first" (Some (mkRepository (Some "repoA"))) in
  let c2 := mkCommit "c2" "second" (Some (mkRepository (Some "repoB"))) in
  let c3 := mkCommit "c3" "third" (Some (mkRepository (Some "repoA"))) in
  getCommitsByRepository id [c1; c2; c3]
  = inr (objectOf {[ "repoA" := [c1; c3]; "repoB" := [c2] ]})
  ∧ [c1; c3] = filter (λ c, repositoryName id c = "repoA") [c1; c2; c3]
  ∧ sublist [c1; c3] [c1; c2; c3].
Proof.
  intros c1 c2 c3.
  assert (getCommitsByRepository id [c1; c2; c3]
          = inr (objectOf {[ "repoA" := [c1; c3]; "repoB" := [c2] ]})) as H
    by (vm_compute; reflexivity).
  split; [exact H|].
  exact (getCommitsByRepository_preserves_order id _ _ "repoA" [c1; c3] H
           eq_refl).
Defined.

(** C6, on the code.  [getCommitsByRepository] is not total and does lose
    commits: a commit after one of a repository named [hasOwnProperty]
    makes it throw (the bucket of that name hides the method it calls),
    and the commits of a repository named [__proto__] get no bucket (the
    assignment replaces the prototype, by an array that keeps the last of
    them). *)
Theorem getCommitsByRepository_not_total :
  let c1 := mkCommit "c1" "first"
              (Some (mkRepository (Some "hasOwnProperty"))) in
  let c2 := mkCommit "c2" "second" (Some (mkRepository (Some "repoA"))) in
  let c3 := mkCommit "c3" "third" (Some (mkRepository (Some "__proto__"))) in
  let c4 := mkCommit "c4" "fourth" (Some (mkRepository (Some "__proto__"))) in
  getCommitsByRepository id [c1; c2] = inl TypeError
  ∧ getCommitsByRepository id [c3] = inr (mkObj ∅ (Some [c3]))
  ∧ getCommitsByRepository id [c3; c4] = inr (mkObj ∅ (Some [c4])).
Proof. intros c1 c2 c3 c4. split_and!; vm_compute; reflexivity. Qed.




(** X1.  [getCommitsByRepository] throws a [TypeError] exactly when a
    commit before the last one is of a repository named [hasOwnProperty].
    Otherwise its result has, for every name but [__proto__], a bucket
    exactly when a commit carries the name, holding those commits in
    input order; it has no own property [__proto__], and its prototype is
    replaced by the array of the last commit of that name when there is
    one. *)
Theorem getCommitsByRepository_behaviour
    (t : string → string) (commitList : list Commit) :
  (getCommitsByRepository t commitList = inl TypeError ↔
     "hasOwnProperty" ∈ (repositoryName t <$> removelast commitList))
  ∧ ∀ commitsByRepository,
      getCommitsByRepository t commitList = inr commitsByRepository →
      (∀ name,
         own commitsByRepository !! name =
           if decide (name = "__proto__") then None
           else match filter (λ c, repositoryName t c = name) commitList with
                | [] => None
                | bucket => Some bucket
                end)
      ∧ proto commitsByRepository =
          (λ c, [c]) <$>
            last (filter (λ c, repositoryName t c = "__proto__") commitList).
Proof.
  destruct (getCommitsByRepository_cases t commitList) as [Hthrow Hok].
  split.
  - split; [|exact Hthrow]. intros H.
    destruct (decide (methodShadowed t commitList)) as [Hs|Hs]; [done|].
    rewrite (Hok Hs) in H. done.
  - intros obj [_ ->]%getCommitsByRepository_returns.
    split; [|done]. intros name. apply commitsObject_lookup.
Qed.

(** X2.  When [getCommitsByRepository] returns on a concatenation, it
    returns on both parts, and the result has, key by key, the buckets of
    the first part with those of the second appended; its prototype is
    the one left by the second part, else by the first. *)
Theorem getCommitsByRepository_app
    (t : string → string) (l1 l2 : list Commit) (o : Obj (list Commit)) :
  getCommitsByRepository t (l1 ++ l2) = inr o →
  ∃ o1 o2,
    getCommitsByRepository t l1 = inr o1
    ∧ getCommitsByRepository t l2 = inr o2
    ∧ own o = appendBuckets (own o1) (own o2)
    ∧ proto o = proto o2 ∪ proto o1.
Proof.
  intros [Hs ->]%getCommitsByRepository_returns.
  exists (commitsObject t l1), (commitsObject t l2).
  split_and!.
  - apply getCommitsByRepository_cases. intros H. apply Hs.
    apply methodShadowed_app. by left.
  - apply getCommitsByRepository_cases. intros H. apply Hs.
    apply methodShadowed_app. by right.
  - cbn. rewrite groupCommits_app. unfold appendBuckets.
    apply map_eq; intros k. rewrite lookup_union_with.
    destruct (decide (k = "__proto__")) as [->|Hk].
    + by rewrite !lookup_delete_eq.
    + rewrite !lookup_delete_ne by done. by rewrite lookup_union_with.
  - cbn. unfold protoBucket. rewrite filter_app, last_app.
    by destruct (last (filter _ l2)), (last (filter _ l1)).
Qed.

Lemma getCommitsByRepository_app_example :
  let c1 := mkCommit "c1" "first" (Some (mkRepository (Some "repoA"))) in
  let c2 := mkCommit "c2" "second" (Some (mkRepository (Some "repoB"))) in
  let c3 := mkCommit "c3" "third" (Some (mkRepository (Some "repoA"))) in
  let o := objectOf {[ "repoA" := [c1; c3]; "repoB" := [c2] ]} in
  getCommitsByRepository id ([c1; c2] ++ [c3]) = inr o
  ∧ ∃ o1 o2,
      getCommitsByRepository id [c1; c2] = inr o1
      ∧ getCommitsByRepository id [c3] = inr o2
      ∧ own o = appendBuckets (own o1) (own o2)
      ∧ proto o = proto o2 ∪ proto o1.
Proof.
  intros c1 c2 c3 o.
  assert (getCommitsByRepository id ([c1; c2] ++ [c3]) = inr o) as H
    by (vm_compute; reflexivity).
  split; [exact H|].
  exact (getCommitsByRepository_app id [c1; c2] [c3] o H).
Defined.

(** X3.  When [getCommitsByRepository] returns, the sizes of the buckets
    add up to the number of input commits of a repository not named
    [__proto__]: those are neither lost nor counted twice. *)
Theorem getCommitsByRepository_total_size
    (t : string → string) (commitList : list Commit)
    (commitsByRepository : Obj (list Commit)) :
  getCommitsByRepository t commitList = inr commitsByRepository →
  bucketTotal (own commitsByRepository)
  = length (filter (λ c, repositoryName t c ≠ "__proto__") commitList).
Proof.
  intros [_ ->]%getCommitsByRepository_returns. cbn.
  pose proof (bucketTotal_delete (groupCommits t commitList) "__proto__")
    as Hd.
  rewrite groupCommits_total_size in Hd.
  pose proof (length_filter_split
                (λ c, repositoryName t c = "__proto__") commitList) as Hf.
  rewrite groupCommits_lookup in Hd. cbn beta in Hf.
  destruct (filter (λ c, repositoryName t c = "__proto__") commitList)
    as [|c cs]; cbn [default id] in Hd; unfold id in Hd; lia.
Qed.

Lemma getCommitsByRepository_total_size_example :
  let c1 := mkCommit "c1" "first" (Some (mkRepository (Some "repoA"))) in
  let c2 := mkCommit "c2" "second" (Some (mkRepository (Some "__proto__"))) in
  let o := mkObj {[ "repoA" := [c1] ]} (Some [c2]) in
  getCommitsByRepository id [c1; c2] = inr o
  ∧ bucketTotal (own o)
    = length (filter (λ c, repositoryName id c ≠ "__proto__") [c1; c2]).
Proof.
  intros c1 c2 o.
  assert (getCommitsByRepository id [c1; c2] = inr o) as H
    by (vm_compute; reflexivity).
  split; [exact H|].
  exact (getCommitsByRepository_total_size id [c1; c2] o H).
Defined.

(** X4.  On an input of plain repository names, exchanging two
    neighbouring commits leaves the result as it was exactly when they
    belong to different repositories (or are the same commit): the order
    across repositories is not kept, the order within one is. *)
Theorem getCommitsByRepository_swap
    (t : string → string) (l1 l2 : list Commit) (a b : Commit) :
  plainCommits t (l1 ++ a :: b :: l2) →
  getCommitsByRepository t (l1 ++ a :: b :: l2)
  = getCommitsByRepository t (l1 ++ b :: a :: l2)
  ↔ repositoryName t a ≠ repositoryName t b ∨ a = b.
Proof.
  intros Hp.
  assert (plainCommits t (l1 ++ b :: a :: l2)) as Hp'.
  { unfold plainCommits in *.
    rewrite Forall_app, !Forall_cons in *. tauto. }
  rewrite !getCommitsByRepository_plain by done.
  rewrite <- groupCommits_swap. unfold objectOf.
  split; [by intros [= ->]|by intros ->].
Qed.

Lemma getCommitsByRepository_swap_example :
  let a := mkCommit "c1" "first" (Some (mkRepository (Some "repoA"))) in
  let b := mkCommit "c2" "second" (Some (mkRepository (Some "repoB"))) in
  plainCommits id ([] ++ a :: b :: [])
  ∧ getCommitsByRepository id ([] ++ a :: b :: [])
    = getCommitsByRepository id ([] ++ b :: a :: []).
Proof.
  intros a b.
  assert (plainCommits id ([] ++ a :: b :: [])) as Hp
    by (apply (bool_decide_unpack _); vm_compute; exact I).
  split; [exact Hp|].
  apply (getCommitsByRepository_swap id [] [] a b Hp).
  left. vm_compute. discriminate.
Defined.

End CommitsByRepository.

(** ** Grouping file changes: the accumulator as an object *)

Module FilesByRepository.
Import ReleaseDetailUtils PlainGrouping ObjectModel PlainFiles PlainFilesMore.

Lemma filesObject_eq m : filesObject m = objectOf (filesOf <$> m).
Proof. done. Qed.

Lemma alter_insert_lookup {V} (f : V → V) (m : gmap string V) k x :
  m !! k = Some x → alter f k m = <[k := f x]> m.
Proof. apply alter_lookup_insert. Qed.

(** One step on plain names. *)
Lemma filesReducer_plain (m : gmap string (gmap string PlainEntry)) f :
  plainFile f →
  m !! "hasOwnProperty" = None →
  (∀ files, m !! repoName f = Some files → files !! "hasOwnProperty" = None) →
  filesReducer (filesObject m) f = inr (filesObject (groupFilesStep m f)).
Proof.
  intros ([Hrp Hrh] & [Hnp Hnh] & He) Hm Hfiles.
  rewrite groupFilesStep_eq. unfold lookup2.
  destruct f as [n r a ty]. cbn [repoName filename author type] in *.
  unfold filesReducer. rewrite filesObject_eq.
  rewrite hasOwnProperty_objectOf by (by rewrite lookup_fmap, Hm).
  cbn [tryBind]. rewrite lookup_fmap.
  set (files0 := default ∅ (m !! r)).
  set (entry0 := default (mkPlainEntry ∅ ∅) (m !! r ≫= (.!! n))).
  (* after the first statement the repository has its object *)
  assert ((if bool_decide (is_Some (filesOf <$> m !! r))
           then objectOf (filesOf <$> m)
           else assign (objectOf (filesOf <$> m)) r emptyObject)
          = objectOf (filesOf <$> <[r := files0]> m)) as ->.
  { subst files0. destruct (m !! r) as [files|] eqn:Hr; cbn [default].
    - rewrite if_bool_decide_true by (cbn; done).
      by rewrite insert_id.
    - rewrite if_bool_decide_false by (cbn; by intros [? ?]).
      rewrite assign_objectOf by done. rewrite fmap_insert.
      unfold filesOf at 2. by rewrite fmap_empty. }
  rewrite (read_objectOf _ r (filesOf files0))
    by (done || by rewrite lookup_fmap, lookup_insert_eq).
  cbn [tryBind].
  assert (files0 !! "hasOwnProperty" = None) as Hf0.
  { subst files0. destruct (m !! r) as [files|] eqn:Hr; cbn; [by apply Hfiles|].
    apply lookup_empty. }
  unfold filesOf at 1.
  rewrite hasOwnProperty_objectOf by (by rewrite lookup_fmap, Hf0).
  cbn [tryBind]. rewrite lookup_fmap.
  assert (m !! r ≫= (.!! n) = files0 !! n) as Hlook.
  { subst files0. destruct (m !! r); cbn; [done|by rewrite lookup_empty]. }
  (* after the second statement the file has its entry *)
  assert ((if bool_decide (is_Some (entryObject <$> files0 !! n))
           then objectOf (filesOf <$> <[r := files0]> m)
           else mutate (objectOf (filesOf <$> <[r := files0]> m)) r
                  (λ files, assign files n (mkFileEntry emptyObject ∅)))
          = objectOf (filesOf <$> <[r := <[n := entry0]> files0]> m)) as ->.
  { subst entry0. rewrite Hlook.
    destruct (files0 !! n) as [entry|] eqn:Hn; cbn [default].
    - rewrite if_bool_decide_true by (cbn; done).
      by rewrite (insert_id files0).
    - rewrite if_bool_decide_false by (cbn; by intros [? ?]).
      rewrite mutate_objectOf by done. f_equal.
      rewrite !fmap_insert.
      rewrite (alter_insert_lookup _ _ r (filesOf files0))
        by apply lookup_insert_eq.
      rewrite insert_insert_eq. f_equal.
      unfold filesOf. rewrite assign_objectOf by done.
      by rewrite fmap_insert. }
  (* the third and fourth statements change the entry in place *)
  assert (∀ g : FileEntry → FileEntry, ∀ entry,
            mutate (objectOf (filesOf <$> <[r := <[n := entry]> files0]> m)) r
              (λ files, mutate files n g)
            = objectOf ((<[r := objectOf (<[n := g (entryObject entry)]>
                                            (entryObject <$> files0))]>
                           (filesOf <$> m)))) as Hmut.
  { intros g entry. rewrite mutate_objectOf by done. f_equal.
    rewrite !fmap_insert.
    rewrite (alter_insert_lookup _ _ r
               (filesOf (<[n := entry]> files0)))
      by apply lookup_insert_eq.
    rewrite insert_insert_eq. f_equal.
    unfold filesOf. rewrite mutate_objectOf by done. f_equal.
    rewrite fmap_insert.
    rewrite (alter_insert_lookup _ _ n (entryObject entry))
      by apply lookup_insert_eq.
    by rewrite insert_insert_eq. }
  assert (∀ e : FileEntry,
            objectOf (<[r := objectOf (<[n := e]> (entryObject <$> files0))]>
                        (filesOf <$> m))
            = objectOf (<[r := objectOf (<[n := e]> (entryObject <$> files0))]>
                          (filesOf <$> <[r := <[n := entry0]> files0]> m)))
    as Hsame.
  { intros e. f_equal. by rewrite fmap_insert, insert_insert_eq. }
  assert (∀ (g : FileEntry → FileEntry) e,
            mutate (objectOf (<[r := objectOf (<[n := e]>
                                                 (entryObject <$> files0))]>
                                (filesOf <$> m))) r
              (λ files, mutate files n g)
            = objectOf (<[r := objectOf (<[n := g e]>
                                           (entryObject <$> files0))]>
                          (filesOf <$> m))) as Hmut2.
  { intros g e. rewrite mutate_objectOf by done. f_equal.
    rewrite (alter_insert_lookup _ _ r
               (objectOf (<[n := e]> (entryObject <$> files0))))
      by apply lookup_insert_eq.
    rewrite insert_insert_eq. f_equal.
    rewrite mutate_objectOf by done. f_equal.
    rewrite (alter_insert_lookup _ _ n e) by apply lookup_insert_eq.
    by rewrite insert_insert_eq. }
  unfold entryStep. cbn [author type].
  destruct (truthy (author_email a)) as [email|] eqn:Hemail.
  - rewrite Hmut, Hmut2. f_equal. rewrite filesObject_eq. f_equal.
    rewrite fmap_insert. f_equal. unfold filesOf. f_equal.
    rewrite fmap_insert. f_equal.
    unfold entryObject. cbn. f_equal.
    rewrite assign_objectOf; [done|].
    intros ->. apply He. by apply truthy_nonempty in Hemail as [-> _].
  - rewrite Hmut. f_equal. rewrite filesObject_eq. f_equal.
    rewrite fmap_insert. f_equal. unfold filesOf. f_equal.
    by rewrite fmap_insert.
Qed.

Lemma getFilesByRepository_snoc l f :
  getFilesByRepository (l ++ [f]) =
    tryBind (getFilesByRepository l) (λ o, filesReducer o f).
Proof. apply reduce_snoc. Qed.

Lemma groupFiles_plain_keys l :
  plainFiles l →
  groupFiles l !! "hasOwnProperty" = None
  ∧ ∀ r files, groupFiles l !! r = Some files →
               files !! "hasOwnProperty" = None.
Proof.
  intros Hp. unfold plainFiles in Hp. rewrite Forall_forall in Hp. split.
  - apply eq_None_not_Some. rewrite groupFiles_repo.
    intros (f & Hf & Hr). apply Hp in Hf as ([_ ?] & _). congruence.
  - intros r files Hr. apply eq_None_not_Some. intros Hs.
    assert (is_Some (lookup2 (groupFiles l) r "hasOwnProperty")) as Hl
      by (unfold lookup2; by rewrite Hr).
    rewrite groupFiles_entry in Hl.
    destruct (changesOf r "hasOwnProperty" l) as [|c cs] eqn:E;
      [by destruct Hl|].
    assert (c ∈ changesOf r "hasOwnProperty" l) as Hc by (rewrite E; by left).
    apply changesOf_elem in Hc as (Hc & _ & Hn).
    apply Hp in Hc as (_ & [_ ?] & _). congruence.
Qed.

(** On plain names [getFilesByRepository] returns the object of the
    grouping over finite maps. *)
Lemma getFilesByRepository_plain l :
  plainFiles l → getFilesByRepository l = inr (filesObject (groupFiles l)).
Proof.
  induction l as [|f l IH] using rev_ind; intros Hp.
  - unfold getFilesByRepository, reduce, filesObject, objectOf. cbn.
    by rewrite fmap_empty.
  - unfold plainFiles in Hp. apply Forall_app in Hp as [Hl Hf].
    apply Forall_inv in Hf.
    rewrite getFilesByRepository_snoc, (IH Hl), groupFiles_snoc.
    cbn [tryBind].
    destruct (groupFiles_plain_keys l Hl) as [Hm Hfiles].
    apply filesReducer_plain; [exact Hf|exact Hm|]. intros files. apply Hfiles.
Qed.

Lemma entryAt_filesObject m r n :
  entryAt (filesObject m) r n = entryObject <$> lookup2 m r n.
Proof.
  unfold entryAt, lookup2, filesObject, objectOf. cbn. rewrite lookup_fmap.
  destruct (m !! r) as [files|]; cbn; [|done]. by rewrite lookup_fmap.
Qed.

Lemma own_filesObject m r :
  own (filesObject m) !! r = filesOf <$> m !! r.
Proof. unfold filesObject, objectOf. cbn. by rewrite lookup_fmap. Qed.

(** C7, on the code.  The step of [getFilesByRepository] does not ensure a
    bucket, an entry or an author for every name: after a change of a
    repository (or, within one repository, of a file) named
    [hasOwnProperty] the next change throws; a change of a repository
    named [__proto__] leaves no bucket; an author whose email is
    [__proto__] is not kept under that email. *)
Theorem getFilesByRepository_special_names :
  let a := mkCommitAuthor (Some "x@y.z") (Some "A") in
  let fH := mkCommitFile "a.js" "hasOwnProperty" a "M" in
  let fB := mkCommitFile "b.js" "repo" a "M" in
  let fN := mkCommitFile "hasOwnProperty" "repo" a "M" in
  let fP := mkCommitFile "a.js" "__proto__" a "M" in
  let fE := mkCommitFile "a.js" "repo"
              (mkCommitAuthor (Some "__proto__") (Some "A")) "M" in
  getFilesByRepository [fH; fB] = inl TypeError
  ∧ getFilesByRepository [fN; fB] = inl TypeError
  ∧ (∃ o, getFilesByRepository [fP] = inr o ∧ own o = ∅)
  ∧ (∃ o entry,
       getFilesByRepository [fE] = inr o
       ∧ entryAt o "repo" "a.js" = Some entry
       ∧ own (authors entry) = ∅).
Proof.
  intros a fH fB fN fP fE. split_and!.
  - vm_compute. reflexivity.
  - vm_compute. reflexivity.
  - eexists. split; [vm_compute; reflexivity|]. reflexivity.
  - eexists _, _. split_and!; [vm_compute; reflexivity|..]; reflexivity.
Qed.

(** C8, as stated, fails: the author kept under an email is the last one
    written, so two changes that differ only in the author's name give
    different results in the two orders. *)
Lemma getFilesByRepository_order_matters :
  ¬ (∀ l1 l2 : list CommitFile,
       l1 ≡ₚ l2 → getFilesByRepository l1 = getFilesByRepository l2).
Proof.
  intros H.
  pose (f1 := mkCommitFile "a.js" "repo"
                (mkCommitAuthor (Some "x@y.z") (Some "A")) "M").
  pose (f2 := mkCommitFile "a.js" "repo"
                (mkCommitAuthor (Some "x@y.z") (Some "B")) "M").
  specialize (H [f1; f2] [f2; f1] (perm_swap _ _ _)).
  apply (f_equal (λ r, match r with
                       | inr o =>
                           entryAt o "repo" "a.js"
                             ≫= λ e, own (authors e) !! "x@y.z"
                       | inl _ => None
                       end)) in H.
  vm_compute in H. discriminate H.
Qed.

(** C8, amended.  On inputs of plain names in which the changes that write
    the same author key (same repository, same file, same non-empty
    email) carry the same author, [getFilesByRepository] returns, and
    returns the same, whatever the order of the input. *)
Theorem getFilesByRepository_permutation (l1 l2 : list CommitFile) :
  l1 ≡ₚ l2 → authorsAgree l1 → plainFiles l1 →
  getFilesByRepository l1 = getFilesByRepository l2
  ∧ ∃ filesByRepository, getFilesByRepository l1 = inr filesByRepository.
Proof.
  intros Hp Hagree Hplain.
  assert (plainFiles l2) as Hplain2 by (unfold plainFiles; by rewrite <- Hp).
  rewrite !getFilesByRepository_plain by done.
  rewrite (groupFiles_permutation l1 l2 Hp Hagree). eauto.
Qed.

Lemma getFilesByRepository_permutation_example :
  let f1 := mkCommitFile "a.js" "repo"
              (mkCommitAuthor (Some "x@y.z") (Some "A")) "M" in
  let f2 := mkCommitFile "a.js" "repo"
              (mkCommitAuthor (Some "x@y.z") (Some "A")) "D" in
  let f3 := mkCommitFile "b.js" "repo"
              (mkCommitAuthor (Some "x@y.z") (Some "B")) "A" in
  [f1; f2; f3] ≡ₚ [f3; f2; f1]
  ∧ authorsAgree [f1; f2; f3]
  ∧ plainFiles [f1; f2; f3]
  ∧ getFilesByRepository [f1; f2; f3] = getFilesByRepository [f3; f2; f1].
Proof.
  intros f1 f2 f3.
  assert ([f1; f2; f3] ≡ₚ [f3; f2; f1]) as Hp
    by (rewrite <- (reverse_Permutation [f1; f2; f3]); reflexivity).
  assert (authorsAgree [f1; f2; f3]) as Hagree
    by (apply (bool_decide_unpack _); vm_compute; exact I).
  assert (plainFiles [f1; f2; f3]) as Hplain
    by (apply (bool_decide_unpack _); vm_compute; exact I).
  split; [exact Hp|]. split; [exact Hagree|]. split; [exact Hplain|].
  exact (proj1 (getFilesByRepository_permutation _ _ Hp Hagree Hplain)).
Defined.

(** X20.  On an input of plain names [getFilesByRepository] returns; a
    repository has a bucket, and a file an entry, exactly when a change
    names them; the author kept under an email is the one of the last
    change of that file with that email; no author is kept under the
    empty email; the type set holds exactly the types of the file's
    changes. *)
Theorem getFilesByRepository_entries (fileList : list CommitFile) :
  plainFiles fileList →
  ∃ filesByRepository,
    getFilesByRepository fileList = inr filesByRepository
    ∧ proto filesByRepository = None
    ∧ (∀ r, is_Some (own filesByRepository !! r) ↔
              ∃ file, file ∈ fileList ∧ repoName file = r)
    ∧ (∀ r n, is_Some (entryAt filesByRepository r n) ↔
                ∃ file, file ∈ fileList ∧ repoName file = r
                        ∧ filename file = n)
    ∧ (∀ r n entry,
         entryAt filesByRepository r n = Some entry →
         (∀ email, own (authors entry) !! email =
                     lastAuthor email (changesOf r n fileList))
         ∧ own (authors entry) !! "" = None
         ∧ proto (authors entry) = None
         ∧ (∀ ty, ty ∈ types entry ↔
                    ∃ file, file ∈ changesOf r n fileList ∧ type file = ty)).
Proof.
  intros Hp. eexists. split; [by apply getFilesByRepository_plain|].
  destruct (groupFiles_fold fileList) as (_ & Hrepo & Hfile & Hentry).
  split_and!.
  - done.
  - intros r. rewrite own_filesObject, <- Hrepo.
    by rewrite fmap_is_Some.
  - intros r n. rewrite entryAt_filesObject, <- Hfile.
    by rewrite fmap_is_Some.
  - intros r n entry. rewrite entryAt_filesObject.
    destruct (lookup2 (groupFiles fileList) r n) as [e|] eqn:He; [|done].
    intros [= <-]. destruct (Hentry r n e He) as (Ha & He0 & Ht).
    split_and!; done.
Qed.

Lemma getFilesByRepository_entries_example :
  let a1 := mkCommitAuthor (Some "x@y.z") (Some "A") in
  let a2 := mkCommitAuthor (Some "x@y.z") (Some "B") in
  let l := [mkCommitFile "a.js" "repo" a1 "M";
            mkCommitFile "a.js" "repo" a2 "A"] in
  plainFiles l
  ∧ getFilesByRepository l
    = inr (objectOf {[ "repo" := objectOf {[ "a.js" :=
             mkFileEntry (objectOf {[ "x@y.z" := a2 ]}) {[ "A"; "M" ]} ]} ]})
  ∧ ∃ filesByRepository, getFilesByRepository l = inr filesByRepository.
Proof.
  intros a1 a2 l.
  assert (plainFiles l) as Hp
    by (apply (bool_decide_unpack _); vm_compute; exact I).
  split; [exact Hp|]. split; [vm_compute; reflexivity|].
  destruct (getFilesByRepository_entries l Hp) as (o & Ho & _).
  exists o. exact Ho.
Defined.



(** X6.  On plain names grouping is idempotent: an input followed by
    itself, or a change repeated at the end, is grouped like the input
    without the repetition. *)
Theorem getFilesByRepository_idempotent
    (fileList : list CommitFile) (file : CommitFile) :
  plainFiles fileList → plainFile file →
  getFilesByRepository (fileList ++ fileList)
  = getFilesByRepository fileList
  ∧ getFilesByRepository (fileList ++ [file; file])
    = getFilesByRepository (fileList ++ [file]).
Proof.
  intros Hp Hf.
  destruct (groupFiles_idempotent fileList) as [H1 H2].
  assert (plainFiles (fileList ++ fileList)) as Hp2
    by (by apply Forall_app).
  assert (plainFiles (fileList ++ [file])) as Hp3
    by (apply Forall_app; split; [done|by apply Forall_singleton]).
  assert (plainFiles (fileList ++ [file; file])) as Hp4
    by (apply Forall_app; split;
        [done|apply Forall_cons; split; [done|by apply Forall_singleton]]).
  rewrite !getFilesByRepository_plain by done.
  by rewrite H1, H2.
Qed.

Lemma getFilesByRepository_idempotent_example :
  let a1 := mkCommitAuthor (Some "x@y.z") (Some "A") in
  let f := mkCommitFile "a.js" "repo" a1 "M" in
  plainFiles [f] ∧ plainFile f
  ∧ getFilesByRepository ([f] ++ [f]) = getFilesByRepository [f].
Proof.
  intros a1 f.
  assert (plainFiles [f]) as Hp
    by (apply (bool_decide_unpack _); vm_compute; exact I).
  assert (plainFile f) as Hf by (by apply Forall_inv in Hp).
  split; [exact Hp|]. split; [exact Hf|].
  exact (proj1 (getFilesByRepository_idempotent [f] f Hp Hf)).
Defined.

(** X7.  On plain names the grouping is decided by the changes of each
    file taken in their order: two inputs that agree on the change
    sequence of every file of every repository are grouped alike, however
    the changes of different files are interleaved. *)
Theorem getFilesByRepository_per_file (l1 l2 : list CommitFile) :
  plainFiles l1 → plainFiles l2 →
  (∀ r n, changesOf r n l1 = changesOf r n l2) →
  getFilesByRepository l1 = getFilesByRepository l2.
Proof.
  intros Hp1 Hp2 H.
  rewrite !getFilesByRepository_plain by done.
  by rewrite (groupFiles_per_file l1 l2 H).
Qed.

Lemma getFilesByRepository_per_file_example :
  let f1 := mkCommitFile "a.js" "repo"
              (mkCommitAuthor (Some "x@y.z") (Some "A")) "M" in
  let f2 := mkCommitFile "b.js" "repo"
              (mkCommitAuthor (Some "x@y.z") (Some "B")) "A" in
  plainFiles [f1; f2] ∧ plainFiles [f2; f1]
  ∧ (∀ r n, changesOf r n [f1; f2] = changesOf r n [f2; f1])
  ∧ getFilesByRepository [f1; f2] = getFilesByRepository [f2; f1].
Proof.
  intros f1 f2.
  assert (plainFiles [f1; f2]) as Hp1
    by (apply (bool_decide_unpack _); vm_compute; exact I).
  assert (plainFiles [f2; f1]) as Hp2
    by (apply (bool_decide_unpack _); vm_compute; exact I).
  assert (∀ r n, changesOf r n [f1; f2] = changesOf r n [f2; f1]) as H.
  { intros r n. unfold changesOf. rewrite !filter_cons, !filter_nil.
    destruct (decide (repoName f1 = r ∧ filename f1 = n)) as [[_ H1]|H1];
      destruct (decide (repoName f2 = r ∧ filename f2 = n)) as [[_ H2]|H2];
      try reflexivity.
    exfalso. cbn in H1, H2. congruence. }
  split; [exact Hp1|]. split; [exact Hp2|]. split; [exact H|].
  exact (getFilesByRepository_per_file _ _ Hp1 Hp2 H).
Defined.

(** X8.  On plain names grouping a concatenation merges, file by file,
    the entries of the two parts: the type sets are united, and an email
    has the author of the second part when it has one there, else that of
    the first. *)
Theorem getFilesByRepository_app (l1 l2 : list CommitFile) :
  plainFiles (l1 ++ l2) →
  ∃ o o1 o2,
    getFilesByRepository (l1 ++ l2) = inr o
    ∧ getFilesByRepository l1 = inr o1
    ∧ getFilesByRepository l2 = inr o2
    ∧ ∀ r n,
        entryAt o r n
        = union_with (λ e1 e2, Some (mergeFileEntries e1 e2))
            (entryAt o1 r n) (entryAt o2 r n).
Proof.
  intros Hp. pose proof Hp as Hp'. unfold plainFiles in Hp'.
  apply Forall_app in Hp' as [Hp1 Hp2].
  eexists _, _, _. split_and!; [by apply getFilesByRepository_plain..|].
  intros r n. rewrite !entryAt_filesObject, groupFiles_app.
  destruct (lookup2 (groupFiles l1) r n), (lookup2 (groupFiles l2) r n);
    done.
Qed.

Lemma getFilesByRepository_app_example :
  let f1 := mkCommitFile "a.js" "repo"
              (mkCommitAuthor (Some "x@y.z") (Some "A")) "M" in
  let f2 := mkCommitFile "a.js" "repo"
              (mkCommitAuthor (Some "x@y.z") (Some "B")) "A" in
  plainFiles ([f1] ++ [f2])
  ∧ ∃ o, getFilesByRepository ([f1] ++ [f2]) = inr o.
Proof.
  intros f1 f2.
  assert (plainFiles ([f1] ++ [f2])) as Hp
    by (apply (bool_decide_unpack _); vm_compute; exact I).
  split; [exact Hp|].
  destruct (getFilesByRepository_app [f1] [f2] Hp) as (o & _ & _ & Ho & _).
  exists o. exact Ho.
Defined.

End FilesByRepository.

(** ** Restoring a release and the detail pages' query *)

Module ReleaseDetailRequestsTheory.
Import ReleaseDetailUtils ReleaseDetailRequests.

Lemma run_andThen api {A B} (body : Async A) (k : A → Async B) :
  run api (andThen body k) = run api body ++ run api (k (returned api body)).
Proof.
  induction body as [a|X call k' IH]; [done|].
  cbn. destruct (answer api call) as [event x]. cbn. by rewrite IH.
Qed.

(** X9.  [restoreRelease] posts once, with the status "active".  When the
    request fails the error toast shows the body's [detail] or the
    fallback, which is the wording of the archive action ("Release could
    not be be archived."), and nothing of the callback runs.  When it
    succeeds the success toast is shown and then the callback, if given,
    runs; a callback that throws adds an error toast after the success
    toast.  Without a callback nothing is pushed to the browser history. *)
Theorem restoreRelease_outcomes
    (t : string → string) (orgId version : string)
    (api : string → RequestOptions → RequestError + unit)
    (onSuccess : option (Async (option RequestError))) :
  let path := "/organizations/" +:+ orgId +:+ "/releases/" in
  let options := mkRequestOptions "POST" (mkRequestData Active [] version) in
  let trace := run api (restoreRelease t orgId version onSuccess) in
  (∀ error,
     api path options = inl error →
     trace = [Loading (t "Restoring Release..."); Request path options;
              Error (errorMessage t error)])
  ∧ (∀ u,
       api path options = inr u →
       trace =
         [Loading (t "Restoring Release..."); Request path options;
          Success (t "Release was successfully restored.")]
         ++ match onSuccess with
            | Some callback =>
                run api callback
                ++ match returned api callback with
                   | Some error => [Error (errorMessage t error)]
                   | None => []
                   end
            | None => []
            end)
  ∧ (onSuccess = None →
     filter isRequest trace = [Request path options]
     ∧ ∀ p, Push p ∉ trace)
  ∧ errorMessage t (mkRequestError None)
    = t "Release could not be be archived.".
Proof.
  intros path options trace. subst trace. unfold restoreRelease. cbn.
  fold path. fold options.
  split_and!.
  - by intros error ->.
  - intros u ->. cbn. do 3 f_equal.
    destruct onSuccess as [callback|]; [|done].
    rewrite run_andThen. f_equal.
    by destruct (returned api callback).
  - intros ->. destruct (api path options); cbn; (split; [done|]).
    + intros p Hp. repeat (apply elem_of_cons in Hp as [Hp|Hp]; [done|]).
      by apply not_elem_of_nil in Hp.
    + intros p Hp. repeat (apply elem_of_cons in Hp as [Hp|Hp]; [done|]).
      by apply not_elem_of_nil in Hp.
  - done.
Qed.

Lemma pick_lookup (o : gmap string ReleasesList.JsValue) keys k :
  ReleasesList.pick o keys !! k = if decide (k ∈ keys) then o !! k else None.
Proof.
  unfold ReleasesList.pick. apply option_eq; intros v.
  rewrite map_lookup_filter_Some. cbn.
  case_decide; [tauto|]. split; [tauto|done].
Qed.

(** X10.  The query of [getQuery] always carries [per_page] (40 unless
    given), whatever the location says; of the location's parameters it
    forwards the global selection ones and [cursor] and no other.  With
    an active repository [repo_name] is that repository's name and
    [getReposToRender] renders that repository alone; without one every
    repository is rendered and [repo_name] is not set (it is there only
    if the location has it and it is a global selection parameter). *)
Theorem getQuery_forwards
    (URL_PARAM : list string)
    (location_query : gmap string ReleasesList.JsValue)
    (perPage : option Z) (activeRepository : option Repository)
    (repos : list string) :
  let query := getQuery URL_PARAM location_query perPage activeRepository in
  query !! "per_page" = Some (ReleasesList.JsNumber (default 40%Z perPage))
  ∧ (∀ key, key ≠ "per_page" → key ≠ "repo_name" →
       query !! key =
         if decide (key ∈ URL_PARAM ∨ key = "cursor")
         then location_query !! key else None)
  ∧ match activeRepository with
    | Some repository =>
        getReposToRender repos activeRepository
          = [repository_name repository]
        ∧ ReleasesList.get query "repo_name"
          = match repository_name repository with
            | Some name => ReleasesList.JsString name
            | None => ReleasesList.JsUndefined
            end
    | None =>
        getReposToRender repos activeRepository = Some <$> repos
        ∧ query !! "repo_name" =
            if decide ("repo_name" ∈ URL_PARAM)
            then location_query !! "repo_name" else None
    end.
Proof.
  intros query. subst query. unfold getQuery.
  assert (∀ key, key ≠ "per_page" →
            (<["per_page" := ReleasesList.JsNumber (default 40%Z perPage)]>
               (ReleasesList.pick location_query (URL_PARAM ++ ["cursor"])))
              !! key
            = if decide (key ∈ URL_PARAM ∨ key = "cursor")
              then location_query !! key else None) as Hbase.
  { intros key Hne. rewrite lookup_insert_ne by done. rewrite pick_lookup.
    destruct (decide (key ∈ URL_PARAM ++ ["cursor"])) as [Hin|Hin];
      destruct (decide (key ∈ URL_PARAM ∨ key = "cursor")) as [Hor|Hor];
      try done; exfalso;
      rewrite elem_of_app, list_elem_of_singleton in Hin; tauto. }
  split_and!.
  - destruct activeRepository.
    + rewrite lookup_insert_ne by done. by rewrite lookup_insert_eq.
    + by rewrite lookup_insert_eq.
  - intros key Hp Hr. destruct activeRepository.
    + rewrite lookup_insert_ne by done. by apply Hbase.
    + by apply Hbase.
  - destruct activeRepository as [repository|].
    + split; [done|]. unfold ReleasesList.get. rewrite lookup_insert_eq.
      done.
    + split; [done|]. rewrite Hbase by done.
      destruct (decide ("repo_name" ∈ URL_PARAM ∨ "repo_name" = "cursor"))
        as [[?|?]|Hor];
        destruct (decide ("repo_name" ∈ URL_PARAM)); try done; tauto.
Qed.

End ReleaseDetailRequestsTheory.

(** ** More on the release list view *)

Module ReleasesListTheory.
Import ReleasesList ReleasesListNavigation ReleasesListBody.

Ltac by_decide := apply (bool_decide_unpack _); vm_compute; exact I.

Lemma getEndpoints_cases props :
  ∃ query,
    query =
      <["flatten" :=
          JsNumber (if bool_decide (getSort props = "date") then 0 else 1)]>
      (<["health" := JsNumber 1]>
      (<["per_page" := JsNumber 25]>
      (<["summaryStatsPeriod" := get (location_query props) "statsPeriod"]>
      (pick (location_query props)
         ["project"; "environment"; "cursor"; "query"; "sort";
          "healthStatsPeriod"; "healthStat"]))))
    ∧ getEndpoints props =
        mkEndpoint "releasesWithHealth"
          ("/organizations/" +:+ organization_slug (organization props)
             +:+ "/releases/") query
        :: (if bool_decide (getSort props = "date")
            then [mkEndpoint "releasesWithoutHealth"
                    ("/organizations/"
                       +:+ organization_slug (organization props)
                       +:+ "/releases/")
                    (<["health" := JsNumber 0]> query)]
            else []).
Proof.
  eexists. split; [reflexivity|]. unfold getEndpoints.
  by destruct (bool_decide (getSort props = "date")).
Qed.

(** X11.  Every request of the list view goes to the organisation's
    releases path with [per_page=25], [summaryStatsPeriod] set to the
    location's [statsPeriod], [flatten] by the sort key and [health] by
    the request, none of which the location can override; of the
    location's parameters exactly project, environment, cursor, query,
    sort, healthStatsPeriod and healthStat are forwarded.  The state keys
    of the requests are distinct. *)
Theorem getEndpoints_query (props : Props) :
  Forall (λ endpoint,
    let query := endpoint_query endpoint in
    endpoint_path endpoint
      = "/organizations/" +:+ organization_slug (organization props)
          +:+ "/releases/"
    ∧ query !! "per_page" = Some (JsNumber 25)
    ∧ query !! "summaryStatsPeriod"
      = Some (get (location_query props) "statsPeriod")
    ∧ query !! "flatten"
      = Some (JsNumber (if decide (getSort props = "date") then 0 else 1))
    ∧ query !! "health"
      = Some (JsNumber
                (if decide (endpoint_stateKey endpoint = "releasesWithHealth")
                 then 1 else 0))
    ∧ ∀ key,
        key ∉ ["per_page"; "summaryStatsPeriod"; "flatten"; "health"] →
        query !! key =
          if decide (key ∈ ["project"; "environment"; "cursor"; "query";
                            "sort"; "healthStatsPeriod"; "healthStat"])
          then location_query props !! key else None)
    (getEndpoints props)
  ∧ NoDup (endpoint_stateKey <$> getEndpoints props).
Proof.
  destruct (getEndpoints_cases props) as (query & Hq & ->).
  assert (query !! "per_page" = Some (JsNumber 25)) as Hpp.
  { subst query. by repeat (rewrite lookup_insert_ne by done;
                            try rewrite lookup_insert_eq). }
  assert (query !! "summaryStatsPeriod"
          = Some (get (location_query props) "statsPeriod")) as Hsp.
  { subst query. by repeat (rewrite lookup_insert_ne by done;
                            try rewrite lookup_insert_eq). }
  assert (query !! "flatten"
          = Some (JsNumber (if decide (getSort props = "date")
                            then 0 else 1))) as Hfl.
  { subst query. rewrite lookup_insert_eq.
    by destruct (decide (getSort props = "date"));
      [rewrite bool_decide_eq_true_2|rewrite bool_decide_eq_false_2]. }
  assert (query !! "health" = Some (JsNumber 1)) as Hh.
  { subst query. by repeat (rewrite lookup_insert_ne by done;
                            try rewrite lookup_insert_eq). }
  assert (∀ key,
            key ∉ ["per_page"; "summaryStatsPeriod"; "flatten"; "health"] →
            query !! key =
              if decide (key ∈ ["project"; "environment"; "cursor"; "query";
                                "sort"; "healthStatsPeriod"; "healthStat"])
              then location_query props !! key else None) as Hrest.
  { intros key Hkey. subst query.
    rewrite !lookup_insert_ne; [apply ReleaseDetailRequestsTheory.pick_lookup|..];
      intros <-; apply Hkey; by_decide. }
  split.
  - apply Forall_cons. split.
    + cbn. split_and!; done.
    + destruct (bool_decide (getSort props = "date")); [|done].
      apply Forall_singleton. cbn. split_and!; try done.
      * by rewrite lookup_insert_ne.
      * by rewrite lookup_insert_ne.
      * by rewrite lookup_insert_ne.
      * by rewrite lookup_insert_eq.
      * intros key Hkey. rewrite lookup_insert_ne; [by apply Hrest|].
        intros <-. apply Hkey. by_decide.
  - destruct (bool_decide (getSort props = "date")); cbn.
    + apply NoDup_cons. split; [by_decide|]. apply NoDup_singleton.
    + apply NoDup_singleton.
Qed.

(** X12.  A [sort] parameter that is a string is the sort key; a missing
    one, or one that is not a string, makes the view sort by date and
    issue both requests. *)
Theorem getSort_default (props : Props) :
  (∀ sort, location_query props !! "sort" = Some (JsString sort) →
           getSort props = sort)
  ∧ ((∀ sort, location_query props !! "sort" ≠ Some (JsString sort)) →
     getSort props = "date" ∧ length (getEndpoints props) = 2).
Proof.
  split.
  - intros sort H. unfold getSort, get. by rewrite H.
  - intros H.
    assert (getSort props = "date") as Hsort.
    { unfold getSort, get.
      destruct (location_query props !! "sort") as [[|sort| |]|] eqn:E;
        try done. by destruct (H sort). }
    split; [done|].
    destruct (getEndpoints_cases props) as (query & _ & ->).
    by rewrite bool_decide_eq_true_2.
Qed.

(** X13.  At the location [handleSort] pushes, the sort key read back is
    the one chosen, the cursor is reset, every other parameter and the
    organisation are kept, and the requests (two for "date", one
    otherwise) carry the chosen sort and an undefined cursor. *)
Theorem handleSort_getSort (props : Props) (sort : string) :
  let props' := atQuery props (handleSort props sort) in
  getSort props' = sort
  ∧ get (location_query props') "cursor" = JsUndefined
  ∧ (∀ key, key ≠ "sort" → key ≠ "cursor" →
       location_query props' !! key = location_query props !! key)
  ∧ organization props' = organization props
  ∧ length (getEndpoints props') = (if decide (sort = "date") then 2 else 1)
  ∧ Forall (λ endpoint,
              endpoint_query endpoint !! "sort" = Some (JsString sort)
              ∧ endpoint_query endpoint !! "cursor" = Some JsUndefined)
      (getEndpoints props').
Proof.
  intros props'. subst props'. unfold atQuery, handleSort. cbn.
  assert (getSort
            {| organization := organization props;
               location_query :=
                 <["sort":=JsString sort]>
                   (<["cursor":=JsUndefined]> (location_query props)) |}
          = sort) as Hsort.
  { unfold getSort, get. cbn. by rewrite lookup_insert_eq. }
  split_and!.
  - done.
  - unfold get. rewrite lookup_insert_ne by done. by rewrite lookup_insert_eq.
  - intros key H1 H2. by rewrite !lookup_insert_ne.
  - done.
  - destruct (getEndpoints_cases
                {| organization := organization props;
                   location_query :=
                     <["sort":=JsString sort]>
                       (<["cursor":=JsUndefined]> (location_query props)) |})
      as (query & _ & ->).
    rewrite Hsort.
    by destruct (decide (sort = "date"));
      [rewrite bool_decide_eq_true_2|rewrite bool_decide_eq_false_2].
  - pose proof (getEndpoints_query
                {| organization := organization props;
                   location_query :=
                     <["sort":=JsString sort]>
                       (<["cursor":=JsUndefined]> (location_query props)) |})
      as [H _].
    eapply Forall_impl; [exact H|]. cbn.
    intros endpoint (_ & _ & _ & _ & _ & Hrest). split.
    + rewrite Hrest by by_decide. rewrite decide_True by by_decide.
      by rewrite lookup_insert_eq.
    + rewrite Hrest by by_decide. rewrite decide_True by by_decide.
      rewrite lookup_insert_ne by done. by rewrite lookup_insert_eq.
Qed.

Lemma onRequestSuccess_update_Some state response :
  stateKey response = "releasesWithHealth" ∨ remainingRequests state = 1%Z →
  onRequestSuccess_update state response =
    Some {| update_reloading := false;
            update_loading := false;
            update_loadingHealth :=
              bool_decide (stateKey response = "releasesWithoutHealth");
            update_releases := data response;
            update_releasesPageLinks := linkHeader (jqXHR response) |}.
Proof.
  intros H. unfold onRequestSuccess_update.
  destruct (bool_decide (stateKey response = "releasesWithHealth")
            || bool_decide (remainingRequests state = 1%Z)) eqn:E; [done|].
  apply orb_false_iff in E. rewrite !bool_decide_eq_false in E. tauto.
Qed.

Lemma onRequestSuccess_update_None state response :
  ¬ (stateKey response = "releasesWithHealth"
     ∨ remainingRequests state = 1%Z) →
  onRequestSuccess_update state response = None.
Proof.
  intros H. unfold onRequestSuccess_update.
  destruct (bool_decide (stateKey response = "releasesWithHealth")
            || bool_decide (remainingRequests state = 1%Z)) eqn:E; [|done].
  apply orb_true_iff in E. rewrite !bool_decide_eq_true in E. tauto.
Qed.

(** X15.  Handling the same response again changes nothing more;
    [onRequestSuccess] leaves [remainingRequests] alone, never sets
    [loading] or [reloading], and never brings the loading indicator
    up. *)
Theorem onRequestSuccess_settles (state : State) (response : Response) :
  let state' := onRequestSuccess state response in
  onRequestSuccess state' response = state'
  ∧ remainingRequests state' = remainingRequests state
  ∧ (loading state' = true → loading state = true)
  ∧ (reloading state' = true → reloading state = true)
  ∧ (shouldShowLoadingIndicator state' = true →
     state' = state ∧ shouldShowLoadingIndicator state = true).
Proof.
  intros state'. subst state'.
  destruct (decide (stateKey response = "releasesWithHealth"
                    ∨ remainingRequests state = 1%Z)) as [H|H].
  - assert (onRequestSuccess state response
            = setState state
                {| update_reloading := false;
                   update_loading := false;
                   update_loadingHealth :=
                     bool_decide (stateKey response = "releasesWithoutHealth");
                   update_releases := data response;
                   update_releasesPageLinks := linkHeader (jqXHR response) |})
      as -> by (unfold onRequestSuccess;
                by rewrite (onRequestSuccess_update_Some _ _ H)).
    split_and!; try done.
    unfold onRequestSuccess. by rewrite onRequestSuccess_update_Some.
  - assert (onRequestSuccess state response = state) as ->
      by (unfold onRequestSuccess;
          by rewrite (onRequestSuccess_update_None _ _ H)).
    split_and!; try done.
    unfold onRequestSuccess. by rewrite (onRequestSuccess_update_None _ _ H).
Qed.

Lemma handleAll_snoc state arrivals loading reloading remaining response :
  handleAll state (arrivals ++ [(loading, reloading, remaining, response)])
  = onRequestSuccess
      (withBaseFields loading reloading remaining (handleAll state arrivals))
      response.
Proof. unfold handleAll. by rewrite foldl_snoc. Qed.

(** X16.  Over any run of responses, whatever the base view left in
    [loading], [reloading] and [remainingRequests] before each, the
    releases, the page links and [loadingHealth] of the state all come
    from one response, the last one that was committed (health-bearing,
    or handled with the counter at 1); they are the initial ones when no
    response was committed. *)
Theorem handleAll_last_commit
    (state : State) (arrivals : list (bool * bool * Z * Response)) :
  match last (filter commits arrivals) with
  | Some arrival => shows (handleAll state arrivals) arrival.2
  | None =>
      releases (handleAll state arrivals) = releases state
      ∧ releasesPageLinks (handleAll state arrivals)
        = releasesPageLinks state
      ∧ loadingHealth (handleAll state arrivals) = loadingHealth state
  end.
Proof.
  induction arrivals as [|[[[l r] n] response] arrivals IH] using rev_ind;
    [done|].
  rewrite handleAll_snoc, filter_app, filter_cons, filter_nil.
  unfold onRequestSuccess.
  destruct (decide (commits (l, r, n, response))) as [H|H].
  - rewrite last_snoc. unfold commits in H. cbn in H.
    rewrite onRequestSuccess_update_Some by done. done.
  - rewrite app_nil_r. unfold commits in H. cbn in H.
    rewrite onRequestSuccess_update_None by done.
    destruct (last (filter commits arrivals)); apply IH.
Qed.

Section Render.

Context (t : string → string).
Context (getRelativeSummary : JsValue → string).
Context (toLowerCase : string → string).
Context (DEFAULT_STATS_PERIOD : string).

(** X17.  [renderEmptyMessage] shows the landing page exactly when no
    search is active (no query, a query that is not a string, or the
    empty string), the sort key is "date" and [statsPeriod] is absent or
    "14d"; in every other case it is a small empty-state warning. *)
Theorem renderEmptyMessage_landing (props : Props) :
  let statsPeriod := get (location_query props) "statsPeriod" in
  let body :=
    renderEmptyMessage t getRelativeSummary toLowerCase DEFAULT_STATS_PERIOD
      props in
  (body = ReleaseLanding (organization props) ↔
     noSearch props ∧ getSort props = "date"
     ∧ (statsPeriod = JsUndefined ∨ statsPeriod = JsString "14d"))
  ∧ (body ≠ ReleaseLanding (organization props) →
     ∃ message, body = EmptyStateWarning true message).
Proof.
  intros statsPeriod body. subst body. unfold renderEmptyMessage, noSearch.
  fold statsPeriod.
  destruct (getQuery props) as [[|c q]|] eqn:Hq.
  all: try (split; [split; [done|intros [[?|?] _]; done]|eauto]).
  all: destruct (bool_decide (getSort props = "users_24h")) eqn:Hu;
    [apply bool_decide_eq_true in Hu; rewrite Hu;
     split; [split; [done|intros (_ & ? & _); done]|eauto]|].
  all: destruct (decide (getSort props = "date")) as [Hd|Hd];
    [rewrite (bool_decide_eq_false_2 (getSort props ≠ "date")) by tauto
    |rewrite (bool_decide_eq_true_2 (getSort props ≠ "date")) by done;
     split; [split; [done|intros (_ & ? & _); done]|eauto]].
  all: destruct statsPeriod as [|s|items|z] eqn:Hs; cbn [defined andb negb].
  all: try (split; [split; [tauto|done]|done]).
  all: try (rewrite bool_decide_eq_false_2 by done; cbn [negb];
            split; [split; [done|intros (_ & _ & [?|?]); done]|eauto]).
  all: destruct (decide (s = "14d")) as [->|Hne];
    [rewrite bool_decide_eq_true_2 by done; cbn [negb];
     split; [split; [tauto|done]|done]
    |rewrite bool_decide_eq_false_2 by congruence; cbn [negb];
     split; [split; [done|intros (_ & _ & [?|?]); congruence]|eauto]].
Qed.

Lemma renderInnerBody_cards_state (props : Props) (state : State) :
  shouldShowLoadingIndicator state = false →
  ∃ cards,
    renderInnerBody t getRelativeSummary toLowerCase DEFAULT_STATS_PERIOD
      props state = Some (ReleaseCards cards)
    ∧ Forall (λ card,
                card_showHealthPlaceholders card = loadingHealth state
                ∧ card_reloading card = reloading state
                ∧ card_orgSlug card = organization_slug (organization props)
                ∧ card_location_query card = location_query props)
        cards.
Proof.
  intros E. unfold renderInnerBody. rewrite E.
  eexists. split; [reflexivity|].
  repeat (apply Forall_cons; split; [done|]). by apply Forall_nil.
Qed.

(** X18.  [renderInnerBody] is the loading indicator exactly while the
    view is loading and either not reloading or without releases;
    otherwise it is a list of cards, each with the view's organisation
    and location, [reloading] as in the state and health placeholders
    exactly when the state has [loadingHealth]. *)
Theorem renderInnerBody_follows_state (props : Props) (state : State) :
  let body :=
    renderInnerBody t getRelativeSummary toLowerCase DEFAULT_STATS_PERIOD
      props state in
  (body = Some LoadingIndicator ↔
     loading state = true
     ∧ (reloading state = false ∨ releases state = None
        ∨ releases state = Some []))
  ∧ (body ≠ Some LoadingIndicator →
     ∃ cards,
       body = Some (ReleaseCards cards)
       ∧ Forall (λ card,
                   card_showHealthPlaceholders card = loadingHealth state
                   ∧ card_reloading card = reloading state
                   ∧ card_orgSlug card
                     = organization_slug (organization props)
                   ∧ card_location_query card = location_query props)
           cards).
Proof.
  intros body. subst body.
  destruct (shouldShowLoadingIndicator state) eqn:E.
  - unfold renderInnerBody. rewrite E.
    split; [|done]. split; [|done]. intros _.
    unfold shouldShowLoadingIndicator, noLength in E.
    destruct (loading state), (reloading state),
      (releases state) as [[|? ?]|]; cbn in E; try done; auto.
  - destruct (renderInnerBody_cards_state props state E)
      as (cards & -> & Hcards).
    split.
    + split; [done|]. intros [Hl Hr].
      unfold shouldShowLoadingIndicator, noLength in E.
      rewrite Hl in E.
      destruct Hr as [Hr|[Hr|Hr]]; rewrite Hr in E; cbn in E; try done.
      all: by destruct (reloading state).
    + intros _. by exists cards.
Qed.

(** X19.  Right after a response is committed the body is the cards, not
    the loading indicator, and the cards show health placeholders exactly
    when the committed response was the list-only one. *)
Theorem commit_then_render
    (props : Props) (state : State) (response : Response) :
  stateKey response = "releasesWithHealth" ∨ remainingRequests state = 1%Z →
  ∃ cards,
    renderInnerBody t getRelativeSummary toLowerCase DEFAULT_STATS_PERIOD
      props (onRequestSuccess state response) = Some (ReleaseCards cards)
    ∧ Forall (λ card,
                card_showHealthPlaceholders card
                  = bool_decide (stateKey response = "releasesWithoutHealth")
                ∧ card_reloading card = false)
        cards.
Proof.
  intros H. unfold onRequestSuccess.
  rewrite (onRequestSuccess_update_Some _ _ H).
  destruct (renderInnerBody_cards_state props
              (setState state
                 {| update_reloading := false;
                    update_loading := false;
                    update_loadingHealth :=
                      bool_decide
                        (stateKey response = "releasesWithoutHealth");
                    update_releases := data response;
                    update_releasesPageLinks :=
                      linkHeader (jqXHR response) |}) eq_refl)
    as (cards & Hbody & Hcards).
  exists cards. split; [done|].
  eapply Forall_impl; [exact Hcards|]. cbn. tauto.
Qed.

(** X14.  At the location [handleSearch] pushes, the search read back is
    the one entered, the cursor is reset, the sort key and every other
    parameter are kept, and an empty list is reported, for a non-empty
    search, as matching nothing for that search. *)
Theorem handleSearch_getQuery (props : Props) (query : string) :
  let props' := atQuery props (handleSearch props query) in
  getQuery props' = Some query
  ∧ get (location_query props') "cursor" = JsUndefined
  ∧ getSort props' = getSort props
  ∧ (∀ key, key ≠ "query" → key ≠ "cursor" →
       location_query props' !! key = location_query props !! key)
  ∧ (query ≠ "" →
     renderEmptyMessage t getRelativeSummary toLowerCase DEFAULT_STATS_PERIOD
       props'
     = EmptyStateWarning true
         (t "There are no releases that match" +:+ ": '" +:+ query +:+ "'.")).
Proof.
  intros props'. subst props'. unfold atQuery, handleSearch.
  assert (getQuery
            {| organization := organization props;
               location_query :=
                 <["query":=JsString query]>
                   (<["cursor":=JsUndefined]> (location_query props)) |}
          = Some query) as Hq.
  { unfold getQuery, get. cbn. by rewrite lookup_insert_eq. }
  split_and!.
  - done.
  - unfold get. cbn. rewrite lookup_insert_ne by done.
    by rewrite lookup_insert_eq.
  - unfold getSort, get. cbn. by rewrite !lookup_insert_ne.
  - intros key H1 H2. cbn. by rewrite !lookup_insert_ne.
  - intros Hne. by apply renderEmptyMessage_search.
Qed.

End Render.

Lemma commit_then_render_example :
  let props := mkProps (mkOrganization "org") ∅ in
  let state := mkState None false false true 1 Undefined in
  let response := mkResponse "releasesWithoutHealth" [] None in
  (stateKey response = "releasesWithHealth" ∨ remainingRequests state = 1%Z)
  ∧ ∃ cards,
      renderInnerBody id (λ _, "") id "14d" props
        (onRequestSuccess state response) = Some (ReleaseCards cards)
      ∧ Forall (λ card,
                  card_showHealthPlaceholders card
                    = bool_decide
                        (stateKey response = "releasesWithoutHealth")
                  ∧ card_reloading card = false)
          cards.
Proof.
  intros props state response.
  assert (stateKey response = "releasesWithHealth"
          ∨ remainingRequests state = 1%Z) as H by (right; reflexivity).
  split; [exact H|].
  exact (commit_then_render id (λ _, "") id "14d" props state response H).
Defined.

End ReleasesListTheory.
